(** * Buy-versus-rent wealth calculator: the financial core

    A shallow embedding of the core functions of the page
    [10_Expected Outcomes] (source lines 20-56) and of the sensitivity
    tables built from them (lines 121-221).

    Two number models.  The functions are embedded twice, line by line the
    same.  In the first, Python [float] values are exact rationals ([Q],
    compared with [==]) and Python [int] values are [Z]: it gives the values
    the code writes down, and its statements are made on moderate inputs
    (module [Moderate]: a box around everything the sidebar can supply),
    where binary64 rounding changes a result only in its last digits.  In
    the second (module [B64]) the values are binary64 numbers with CPython's
    error rules ([ZeroDivisionError], [OverflowError]) and the C library's
    [pow] as a parameter: it shows what the program does at the inputs where
    rounding decides, such as a rate so small that [1 + r] is [1]. *)

From Stdlib Require Import QArith Qabs Qround Qpower Lqa.
From Stdlib Require Import ZArith Lia List Bool String Ascii DecimalString.
From Stdlib Require Floats DecimalPos DecimalN.
Import ListNotations.

Local Open Scope Q_scope.

(** ** Exceptions and the result monad *)

Module Py.

(** The exceptions the modelled arithmetic can raise. *)
Inductive exn : Type :=
| ZeroDivisionError.

Inductive result (A : Type) : Type :=
| Ok (a : A)
| Raise (e : exn).

Arguments Ok {A} a.
Arguments Raise {A} e.

Definition bind {A B : Type} (m : result A) (k : A -> result B) : result B :=
  match m with
  | Ok a => k a
  | Raise e => Raise e
  end.

Definition is_ok {A : Type} (m : result A) : bool :=
  match m with
  | Ok _ => true
  | Raise _ => false
  end.

(** [a / b]: true division raises on a zero divisor. *)
Definition div (a b : Q) : result Q :=
  if Qeq_bool b 0 then Raise ZeroDivisionError else Ok (a / b).

(** [b ** n] with an [int] exponent: zero to a negative power raises. *)
Definition pow (b : Q) (n : Z) : result Q :=
  if Qeq_bool b 0 && (n <? 0)%Z then Raise ZeroDivisionError else Ok (b ^ n).

End Py.

Import Py.

Notation "x <- m ;; k" := (Py.bind m (fun x => k))
  (at level 61, m at next level, right associativity).

(** ** Core financial functions (source lines 20-56), in exact arithmetic *)

(** [monthly_mortgage_payment], lines 20-25. *)
Definition monthly_mortgage_payment (principal annual_rate : Q) (years : Z)
  : result Q :=
  let r := annual_rate / 12 in
  let n := (years * 12)%Z in
  if Qeq_bool annual_rate 0 then
    Py.div principal (inject_Z n)
  else
    p1 <- Py.pow (1 + r) n ;;
    p2 <- Py.pow (1 + r) n ;;
    Py.div (principal * (r * p1)) (p2 - 1).

(** [fv_lump_sum], lines 27-28. *)
Definition fv_lump_sum (pv annual_rate : Q) (years : Z) : result Q :=
  p <- Py.pow (1 + annual_rate) years ;;
  Ok (pv * p).

(** [fv_monthly_annuity], lines 30-35. *)
Definition fv_monthly_annuity (pmt annual_rate : Q) (years : Z) : result Q :=
  let r := annual_rate / 12 in
  let n := (years * 12)%Z in
  if Qeq_bool annual_rate 0 then
    Ok (pmt * inject_Z n)
  else
    p <- Py.pow (1 + r) n ;;
    q <- Py.div (p - 1) r ;;
    Ok (pmt * q).

(** The keyword arguments of [buy_vs_rent_wealth], lines 37-45. *)
Record params : Type := mkParams {
  house_price : Q;
  down_pct : Q;
  mortgage_rate : Q;
  term_years : Z;
  rent_yield : Q;
  invest_return : Q;
  home_appreciation : Q
}.

(** The returned triple [(buy_wealth, rent_wealth, diff)]. *)
Record outcome : Type := mkOutcome {
  buy_wealth : Q;
  rent_wealth : Q;
  diff : Q
}.

(** [buy_vs_rent_wealth], lines 46-56. *)
Definition buy_vs_rent_wealth (p : params) : result outcome :=
  let loan := house_price p * (1 - down_pct p) in
  let down := house_price p * down_pct p in
  m_mort <- monthly_mortgage_payment loan (mortgage_rate p) (term_years p) ;;
  let monthly_rent := (house_price p * rent_yield p) / 12 in
  let monthly_contribution := m_mort - monthly_rent in
  bw <- fv_lump_sum (house_price p) (home_appreciation p) (term_years p) ;;
  lump <- fv_lump_sum down (invest_return p) (term_years p) ;;
  ann <- fv_monthly_annuity monthly_contribution (invest_return p)
           (term_years p) ;;
  let rw := lump + ann in
  let d := bw - rw in
  Ok (mkOutcome bw rw d).

(** The default arguments of lines 38-44: the base case. *)
Definition base_case : params :=
  mkParams 800000 (10 # 100) (4 # 100) 30 (45 # 1000) (6 # 100) (2 # 100).

(** ** Sensitivity tables (source lines 121-221) *)

(** Rounding to an integer, ties to even: what the [.0f] presentation type
    does to the exact value. *)
Definition round_half_even (x : Q) : Z :=
  let f := Qfloor x in
  match Qcompare (x - inject_Z f) (1 # 2) with
  | Lt => f
  | Gt => (f + 1)%Z
  | Eq => if Z.even f then f else (f + 1)%Z
  end.

(** The [,] option: a comma between groups of three digits, written on the
    digits in reverse order. *)
Fixpoint group_rev (ds : list ascii) : list ascii :=
  match ds with
  | a :: b :: c :: ((_ :: _) as rest) =>
      a :: b :: c :: ","%char :: group_rev rest
  | _ => ds
  end.

Definition grouped (n : Z) : string :=
  let ds := list_ascii_of_string (NilZero.string_of_uint (N.to_uint (Z.to_N n))) in
  string_of_list_ascii (rev (group_rev (rev ds))).

(** [format_rm], lines 121-122: [f"RM {val:,.0f}"]. *)
Definition format_rm (val : Q) : string :=
  let sign := if Qle_bool 0 val then EmptyString else "-"%string in
  ("RM " ++ sign ++ grouped (round_half_even (Qabs val)))%string.

(** [numpy.arange(start, stop, step)] on exact numbers:
    [ceil((stop - start) / step)] values [start + i * step]. *)
Definition arange (start stop step : Q) : list Q :=
  map (fun i => start + inject_Z (Z.of_nat i) * step)
      (seq 0 (Z.to_nat (Qceiling ((stop - start) / step)))).

(** Lines 134-135, 165 and 195. *)
Definition mr_grid : list Q := arange (3 # 100) (601 # 10000) (5 # 1000).
Definition ir_grid : list Q := arange (4 # 100) (1001 # 10000) (1 # 100).
Definition ap_grid : list Q := arange 0 (501 # 10000) (5 # 1000).
Definition ry_grid : list Q := arange (3 # 100) (601 # 10000) (5 # 1000).

(** The inner loop of a table: one evaluation per column value, its
    difference formatted and appended to [row].  The axis values, numpy
    scalars in the source, are numbers like any other here; an error of an
    evaluation ends the loop. *)
Fixpoint sweep_row (scenario : Q -> params) (cols : list Q)
    (row : list string) : result (list string) :=
  match cols with
  | [] => Ok row
  | c :: cols' =>
      o <- buy_vs_rent_wealth (scenario c) ;;
      sweep_row scenario cols' (row ++ [format_rm (diff o)])
  end.

(** The outer loop: one row per row value, appended to [data]. *)
Fixpoint sweep (scenario : Q -> Q -> params) (rows cols : list Q)
    (data : list (list string)) : result (list (list string)) :=
  match rows with
  | [] => Ok data
  | r :: rows' =>
      row <- sweep_row (scenario r) cols [] ;;
      sweep scenario rows' cols (data ++ [row])
  end.

(** The three tables; [base] holds the sidebar inputs (lines 62-68). *)

(** [data_A], lines 137-151: investment return by mortgage rate. *)
Definition scenario_A (base : params) (ir mr : Q) : params :=
  mkParams (house_price base) (down_pct base) mr (term_years base)
    (rent_yield base) ir (home_appreciation base).

Definition data_A (base : params) : result (list (list string)) :=
  sweep (scenario_A base) ir_grid mr_grid [].

(** [data_B], lines 167-181: investment return by home appreciation. *)
Definition scenario_B (base : params) (ir ap : Q) : params :=
  mkParams (house_price base) (down_pct base) (mortgage_rate base)
    (term_years base) (rent_yield base) ir ap.

Definition data_B (base : params) : result (list (list string)) :=
  sweep (scenario_B base) ir_grid ap_grid [].

(** [data_C], lines 197-211: mortgage rate by rent yield. *)
Definition scenario_C (base : params) (mr ry : Q) : params :=
  mkParams (house_price base) (down_pct base) mr (term_years base)
    ry (invest_return base) (home_appreciation base).

Definition data_C (base : params) : result (list (list string)) :=
  sweep (scenario_C base) mr_grid ry_grid [].

(** The three tables by name. *)
Inductive table : Type :=
| TableA
| TableB
| TableC.

Definition scenario_of (t : table) : params -> Q -> Q -> params :=
  match t with
  | TableA => scenario_A
  | TableB => scenario_B
  | TableC => scenario_C
  end.

(** Python values of the two types a table cell and a difference have, and
    [==] between them. *)
Inductive pyval : Type :=
| PyFloat (x : Q)
| PyStr (s : string).

Definition py_eq (a b : pyval) : bool :=
  match a, b with
  | PyFloat x, PyFloat y => Qeq_bool x y
  | PyStr s, PyStr t => String.eqb s t
  | _, _ => false
  end.

(** ** The core functions on binary64 numbers

    The same four functions with Python's [float]: IEEE 754 binary64
    arithmetic, rounding to nearest.  Addition, subtraction and
    multiplication never raise (they give infinities and NaN); true division
    raises on a zero divisor; [float ** int] follows CPython's [float_pow],
    whose special cases come before the call of the C library's [pow], the
    parameter [libm] here. *)

Module B64.

Import PrimFloat SpecFloat FloatOps.
#[local] Set Warnings "-inexact-float".

Inductive exn : Type :=
| ZeroDivisionError
| OverflowError.

Inductive result (A : Type) : Type :=
| Ok (a : A)
| Raise (e : exn).

Arguments Ok {A} a.
Arguments Raise {A} e.

Definition bind {A B : Type} (m : result A) (k : A -> result B) : result B :=
  match m with
  | Ok a => k a
  | Raise e => Raise e
  end.

#[local] Notation "x <-- m ;; k" := (bind m (fun x => k))
  (at level 61, m at next level, right associativity).

(** An [int] operand of a float operation becomes the nearest double; an
    [int] beyond the range of the doubles raises. *)
Definition of_int (n : Z) : result float :=
  let x := SF2Prim (binary_normalize prec emax n 0 false) in
  if is_infinity x then Raise OverflowError else Ok x.

(** [a / b] *)
Definition div (a b : float) : result float :=
  if (b =? 0)%float then Raise ZeroDivisionError else Ok (a / b)%float.

(** Whether the double of the [int] [w] is an odd integer: the doubles from
    [2^53] on are even. *)
Definition odd_double (w : Z) : bool :=
  (Z.abs w <? 2 ^ 53)%Z && Z.odd w.

(** [v ** w] for a float [v] and an [int] [w]. *)
Definition pow (libm : float -> float -> float) (v : float) (w : Z)
  : result float :=
  iw <-- of_int w ;;
  if (w =? 0)%Z then Ok 1%float
  else if is_nan v then Ok v
  else if is_infinity v then
    Ok (if (0 <? w)%Z
        then (if odd_double w then v else abs v)
        else (if odd_double w && (v <? 0)%float then (-0)%float else 0%float))
  else if (v =? 0)%float then
    if (w <? 0)%Z then Raise ZeroDivisionError
    else Ok (if odd_double w then v else 0%float)
  else
    let negate := (v <? 0)%float && odd_double w in
    let a := abs v in
    if (a =? 1)%float then Ok (if negate then (-1)%float else 1%float)
    else
      let x := libm a iw in
      if is_infinity x then Raise OverflowError
      else Ok (if negate then (- x)%float else x).

(** [monthly_mortgage_payment], lines 20-25. *)
Definition monthly_mortgage_payment (libm : float -> float -> float)
    (principal annual_rate : float) (years : Z) : result float :=
  let r := (annual_rate / 12)%float in
  let n := (years * 12)%Z in
  if (annual_rate =? 0)%float then
    n' <-- of_int n ;;
    div principal n'
  else
    p1 <-- pow libm (1 + r)%float n ;;
    p2 <-- pow libm (1 + r)%float n ;;
    div (principal * (r * p1))%float (p2 - 1)%float.

(** [fv_lump_sum], lines 27-28. *)
Definition fv_lump_sum (libm : float -> float -> float)
    (pv annual_rate : float) (years : Z) : result float :=
  p <-- pow libm (1 + annual_rate)%float years ;;
  Ok (pv * p)%float.

(** [fv_monthly_annuity], lines 30-35. *)
Definition fv_monthly_annuity (libm : float -> float -> float)
    (pmt annual_rate : float) (years : Z) : result float :=
  let r := (annual_rate / 12)%float in
  let n := (years * 12)%Z in
  if (annual_rate =? 0)%float then
    n' <-- of_int n ;;
    Ok (pmt * n')%float
  else
    p <-- pow libm (1 + r)%float n ;;
    q <-- div (p - 1)%float r ;;
    Ok (pmt * q)%float.

Record params : Type := mkParams {
  house_price : float;
  down_pct : float;
  mortgage_rate : float;
  term_years : Z;
  rent_yield : float;
  invest_return : float;
  home_appreciation : float
}.

Record outcome : Type := mkOutcome {
  buy_wealth : float;
  rent_wealth : float;
  diff : float
}.

(** [buy_vs_rent_wealth], lines 46-56. *)
Definition buy_vs_rent_wealth (libm : float -> float -> float) (p : params)
  : result outcome :=
  let loan := (house_price p * (1 - down_pct p))%float in
  let down := (house_price p * down_pct p)%float in
  m_mort <-- monthly_mortgage_payment libm loan (mortgage_rate p)
               (term_years p) ;;
  let monthly_rent := (house_price p * rent_yield p / 12)%float in
  let monthly_contribution := (m_mort - monthly_rent)%float in
  bw <-- fv_lump_sum libm (house_price p) (home_appreciation p)
           (term_years p) ;;
  lump <-- fv_lump_sum libm down (invest_return p) (term_years p) ;;
  ann <-- fv_monthly_annuity libm monthly_contribution (invest_return p)
            (term_years p) ;;
  let rw := (lump + ann)%float in
  let d := (bw - rw)%float in
  Ok (mkOutcome bw rw d).

(** The invariants of [ScenarioParameters] (specification, section 3) on
    doubles. *)
Definition valid (p : params) : bool :=
  (0 <? house_price p)%float
  && (0 <=? down_pct p)%float && (down_pct p <? 1)%float
  && (0 <=? mortgage_rate p)%float
  && (0 <? term_years p)%Z
  && (0 <=? rent_yield p)%float
  && (0 <=? invest_return p)%float
  && (0 <=? home_appreciation p)%float.

(** The exception a call ends with, if any. *)
Definition error {A : Type} (m : result A) : option exn :=
  match m with
  | Ok _ => None
  | Raise e => Some e
  end.

Definition is_nonneg (x : float) : bool := (0 <=? x)%float.

Definition is_positive (x : float) : bool := (0 <? x)%float.

(** A rate of [1e-17]: positive, and so small that [1 + rate / 12] is
    [1]. *)
Definition tiny : float := 1e-17%float.

(** The loan of the base case: 90% of 800000. *)
Definition loan : float := 720000%float.

Definition nought : float := 0%float.

Definition unit : float := 1%float.

(** The default arguments of lines 38-44. *)
Definition base_case : params :=
  mkParams 800000 0.10 0.04 30 0.045 0.06 0.02.

(** The base case with the tiny mortgage rate. *)
Definition tiny_rate : params :=
  mkParams 800000 0.10 tiny 30 0.045 0.06 0.02.

(** The whole price paid down, at the tiny mortgage rate. *)
Definition paid_down : params :=
  mkParams 800000 1 tiny 30 0.045 0.06 0.02.

(** A parameter set outside the invariants: a negative price and a down
    payment of 150%. *)
Definition out_of_range : params :=
  mkParams (-800000) 1.5 0.04 30 0.045 0.06 0.02.

(** The base case with a term of 0 years. *)
Definition no_term : params :=
  mkParams 800000 0.10 0.04 0 0.045 0.06 0.02.

(** An interest-free loan, savings without a return, and a home
    appreciation [a]. *)
Definition flat (a : float) : params :=
  mkParams 800000 0.10 0 30 0.045 0 a.

End B64.

(** ** Moderate inputs

    A box that holds every value the sidebar of lines 62-68 can supply (a
    price of 100,000 to 5,000,000, a term of 5 to 40 years, rates that are 0
    or at least one slider step, 0.001, and at most 0.15), with room to
    spare.  On it no power overflows and no difference of nearby numbers
    loses its digits. *)

Module Moderate.

Definition rate (x : Q) : Prop :=
  x == 0 \/ (1 # 10000 <= x /\ x <= 1 # 5).

Definition amount (x : Q) : Prop :=
  1 <= x /\ x <= 10000000.

Definition years (y : Z) : Prop :=
  (1 <= y <= 50)%Z.

Definition fraction (x : Q) : Prop :=
  0 <= x /\ x <= 1 # 5.

Definition inputs (p : params) : Prop :=
  amount (house_price p) /\
  (0 <= down_pct p /\ down_pct p <= 1) /\
  rate (mortgage_rate p) /\
  years (term_years p) /\
  fraction (rent_yield p) /\
  rate (invest_return p) /\
  fraction (home_appreciation p).

(** The least distance between two rates that are told apart below: one
    millionth, a thousandth of a slider step. *)
Definition step : Q := 1 # 1000000.

End Moderate.

(** ** The operations as the specification words them

    Total functions on exact numbers, written from sections 3 and 4 of the
    specification; the theorems below compare the code with them. *)

Module Spec.

(** Section 4.1: [r = annualRate/12], [n = years*12]. *)
Definition monthlyMortgagePayment (principal annualRate : Q) (years : Z) : Q :=
  let r := annualRate / 12 in
  let n := (years * 12)%Z in
  if Qeq_bool annualRate 0 then principal / inject_Z n
  else principal * r * (1 + r) ^ n / ((1 + r) ^ n - 1).

(** Section 4.2, operation A. *)
Definition futureValueLumpSum (presentValue annualRate : Q) (years : Z) : Q :=
  presentValue * (1 + annualRate) ^ years.

(** Section 4.2, operation B. *)
Definition futureValueMonthlyAnnuity (monthlyPayment annualRate : Q)
    (years : Z) : Q :=
  let r := annualRate / 12 in
  let n := (years * 12)%Z in
  if Qeq_bool annualRate 0 then monthlyPayment * inject_Z n
  else monthlyPayment * ((1 + r) ^ n - 1) / r.

(** Section 3: the invariants of [ScenarioParameters]. *)
Definition valid (p : params) : Prop :=
  0 < house_price p /\
  (0 <= down_pct p /\ down_pct p < 1) /\
  0 <= mortgage_rate p /\
  (0 < term_years p)%Z /\
  0 <= rent_yield p /\
  0 <= invest_return p /\
  0 <= home_appreciation p.

(** Section 4.3, steps 1-4: the renter's monthly investable difference. *)
Definition monthlyInvestableDifference (p : params) : Q :=
  monthlyMortgagePayment (house_price p * (1 - down_pct p))
    (mortgage_rate p) (term_years p)
  - house_price p * rent_yield p / 12.

(** Section 4.3, step 5. *)
Definition buyWealth (p : params) : Q :=
  futureValueLumpSum (house_price p) (home_appreciation p) (term_years p).

(** Section 4.3, step 6. *)
Definition rentWealth (p : params) : Q :=
  futureValueLumpSum (house_price p * down_pct p) (invest_return p)
    (term_years p)
  + futureValueMonthlyAnnuity (monthlyInvestableDifference p)
      (invest_return p) (term_years p).

End Spec.

(** Overriding one keyword argument, as the call sites do. *)
Definition with_invest_return (p : params) (x : Q) : params :=
  mkParams (house_price p) (down_pct p) (mortgage_rate p) (term_years p)
    (rent_yield p) x (home_appreciation p).

Definition with_home_appreciation (p : params) (x : Q) : params :=
  mkParams (house_price p) (down_pct p) (mortgage_rate p) (term_years p)
    (rent_yield p) (invest_return p) x.

Definition with_mortgage_rate (p : params) (x : Q) : params :=
  mkParams (house_price p) (down_pct p) x (term_years p)
    (rent_yield p) (invest_return p) (home_appreciation p).

Definition with_rent_yield (p : params) (x : Q) : params :=
  mkParams (house_price p) (down_pct p) (mortgage_rate p) (term_years p)
    x (invest_return p) (home_appreciation p).

Definition with_down_pct (p : params) (x : Q) : params :=
  mkParams (house_price p) x (mortgage_rate p) (term_years p)
    (rent_yield p) (invest_return p) (home_appreciation p).

(** ** Scenarios and predicates used in the statements *)

(** A scenario that shares only price, appreciation and term with the base
    case. *)
Definition other_financing : params :=
  mkParams 800000 (50 # 100) (7 # 100) 30 (3 # 100) (9 # 100) (2 # 100).

(** An interest-free loan over 12 years with no down payment, where the
    monthly payment (5000) is below the monthly rent (6000). *)
Definition interest_free : params :=
  mkParams 720000 0 0 12 (1 # 10) 0 (2 # 100).

(** The base case with an interest-free loan and no rent. *)
Definition rent_free : params :=
  mkParams 800000 (10 # 100) 0 30 0 (6 # 100) (2 # 100).

(** The base case with a term of one year. *)
Definition one_year : params :=
  mkParams 800000 (10 # 100) (4 # 100) 1 (45 # 1000) (6 # 100) (2 # 100).

(** A parameter set outside the invariants: a negative price and a down
    payment of 150 percent. *)
Definition out_of_range : params :=
  mkParams (-800000) (3 # 2) (4 # 100) 30 (45 # 1000) (6 # 100) (2 # 100).

(** [within tol v r]: [r] is a number at most [tol] away from [v]. *)
Definition within (tol v : Q) (r : result Q) : Prop :=
  match r with
  | Ok x => Qabs (x - v) <= tol
  | Raise _ => False
  end.

Definition component (f : outcome -> Q) (r : result outcome) : result Q :=
  o <- r ;; Ok (f o).

Definition returns_positive (r : result Q) : Prop :=
  match r with
  | Ok x => 0 < x
  | Raise _ => False
  end.

(** What the cells of a row are: the formatted differences, in column
    order. *)
Definition row_cells (scenario : Q -> Q -> params) (r : Q) (cols : list Q)
    (row : list string) : Prop :=
  List.length row = List.length cols /\
  forall j c, nth_error cols j = Some c ->
    exists o, buy_vs_rent_wealth (scenario r c) = Ok o /\
              nth_error row j = Some (format_rm (diff o)).

(** ** Month-by-month schedules

    The two schedules that the closed forms of lines 20-35 stand for, one
    month at a time, with the payment at the end of each month. *)

(** The balance of a loan after [k] payments of [pay]: a month of interest
    at the monthly rate [r], then the payment. *)
Fixpoint balance (principal r pay : Q) (k : nat) : Q :=
  match k with
  | O => principal
  | S k' => balance principal r pay k' * (1 + r) - pay
  end.

(** The savings after [k] monthly contributions of [pmt]: a month of growth
    at the monthly rate [r], then the contribution. *)
Fixpoint savings (pmt r : Q) (k : nat) : Q :=
  match k with
  | O => 0
  | S k' => savings pmt r k' * (1 + r) + pmt
  end.

(** ** Colouring of the table cells (source lines 124-130) *)

(** [s.replace(old, new)] for a non-empty [old]: the occurrences of [old],
    left to right and without overlap, become [new].  [skip] counts the
    characters of a matched occurrence still to be dropped. *)
Fixpoint replace_from (old new : string) (skip : nat) (s : string) : string :=
  match s with
  | EmptyString => EmptyString
  | String c s' =>
      match skip with
      | S k => replace_from old new k s'
      | O =>
          if String.prefix old s
          then (new ++ replace_from old new (String.length old - 1) s')%string
          else String c (replace_from old new 0 s')
      end
  end.

(** With an empty [old], [new] goes before every character and at the
    end. *)
Fixpoint interleave (new s : string) : string :=
  match s with
  | EmptyString => new
  | String c s' => (new ++ String c (interleave new s'))%string
  end.

Definition str_replace (old new s : string) : string :=
  match old with
  | EmptyString => interleave new s
  | String _ _ => replace_from old new 0 s
  end.

(** The characters [str.strip()] removes, among the first 256 code points. *)
Definition is_space (c : ascii) : bool :=
  let n := nat_of_ascii c in
  ((9 <=? n) && (n <=? 13) || (28 <=? n) && (n <=? 32)
   || (n =? 133) || (n =? 160))%nat.

Fixpoint lstrip (s : string) : string :=
  match s with
  | EmptyString => EmptyString
  | String c s' => if is_space c then lstrip s' else s
  end.

Definition str_rev (s : string) : string :=
  string_of_list_ascii (rev (list_ascii_of_string s)).

Definition str_strip (s : string) : string :=
  str_rev (lstrip (str_rev (lstrip s))).

Definition Qlt_bool (x y : Q) : bool := negb (Qle_bool y x).

(** [color_positive_negative], lines 124-130.  The builtin [float] is a
    parameter: [None] stands for the exception that the bare [except]
    turns into the empty string. *)
Definition color_positive_negative (float : string -> option Q)
    (val : string) : string :=
  match float (str_strip (str_replace "," "" (str_replace "RM" "" val))) with
  | None => EmptyString
  | Some numeric =>
      let color :=
        if Qlt_bool 0 numeric then "green"%string
        else if Qlt_bool numeric 0 then "red"%string
        else "black"%string in
      ("color: " ++ color)%string
  end.

(** The decimal numeral of a whole number, and the text that is left of a
    formatted amount once "RM", the commas and the blank are removed. *)
Definition numeral (n : Z) : string :=
  NilZero.string_of_uint (N.to_uint (Z.to_N n)).

Definition plain_text (val : Q) : string :=
  ((if Qle_bool 0 val then EmptyString else "-")
   ++ numeral (round_half_even (Qabs val)))%string.

(** The number a plain text denotes: the rounded amount with its sign. *)
Definition plain_value (val : Q) : Q :=
  if Qle_bool 0 val then inject_Z (round_half_even (Qabs val))
  else - inject_Z (round_half_even (Qabs val)).

(** A reader of optionally signed decimal numerals, as [float] reads
    them. *)
Definition read_decimal (s : string) : option Q :=
  match s with
  | String "-" s' =>
      option_map (fun u => - inject_Z (Z.of_N (N.of_uint u)))
        (NilZero.uint_of_string s')
  | _ =>
      option_map (fun u => inject_Z (Z.of_N (N.of_uint u)))
        (NilZero.uint_of_string s)
  end.

Definition is_digit (c : ascii) : bool :=
  let n := nat_of_ascii c in ((48 <=? n) && (n <=? 57))%nat.

Definition not_comma (c : ascii) : bool := negb (Ascii.eqb c ",").

(** A table of [rows] rows with [cols] cells each. *)
Definition table_shape (rows cols : nat) (g : list (list string)) : Prop :=
  List.length g = rows /\ Forall (fun row => List.length row = cols) g.

(** ** Powers between rounded bounds

    [x ^ p] computed with every product rounded down, or up, to a multiple
    of [1 / D]: small numbers that enclose the exact power. *)

Definition round_dn (D : positive) (q : Q) : Q :=
  Qfloor (q * inject_Z (Zpos D)) # D.

Definition round_up (D : positive) (q : Q) : Q :=
  Qceiling (q * inject_Z (Zpos D)) # D.

Fixpoint pow_dn (D : positive) (x : Q) (p : positive) : Q :=
  match p with
  | xH => x
  | xO p' => let y := pow_dn D x p' in round_dn D (y * y)
  | xI p' => let y := pow_dn D x p' in round_dn D (x * round_dn D (y * y))
  end.

Fixpoint pow_up (D : positive) (x : Q) (p : positive) : Q :=
  match p with
  | xH => x
  | xO p' => let y := pow_up D x p' in round_up D (y * y)
  | xI p' => let y := pow_up D x p' in round_up D (x * round_up D (y * y))
  end.

(** The grain of the enclosures below: one part in 10^15. *)
Definition grain : positive := 1000000000000000%positive.

(** ** Geometric sums *)

(** [gsum x k = 1 + x + ... + x^(k-1)]. *)
Fixpoint gsum (x : Q) (k : nat) : Q :=
  match k with
  | O => 0
  | S k' => 1 + x * gsum x k'
  end.

(** ** Powers and geometric sums *)

Section Powers.

Lemma Qeq_bool_false_neq (x y : Q) : Qeq_bool x y = false -> ~ x == y.
Proof.
  intros H E. apply Qeq_bool_iff in E. congruence.
Qed.

Lemma Qeq_bool_pos (x : Q) : 0 < x -> Qeq_bool x 0 = false.
Proof.
  intros H. destruct (Qeq_bool x 0) eqn:E; [|reflexivity].
  apply Qeq_bool_iff in E. lra.
Qed.

Lemma Qeq_bool_zero (x : Q) : x == 0 -> Qeq_bool x 0 = true.
Proof. intros H. now apply Qeq_bool_iff. Qed.

Lemma pow_succ (x : Q) (k : nat) :
  x ^ Z.of_nat (S k) == x * x ^ Z.of_nat k.
Proof.
  rewrite Nat2Z.inj_succ, <- Z.add_1_l.
  rewrite Qpower_plus' by lia.
  now rewrite Qpower_1_r.
Qed.

Lemma pow_nonneg (x : Q) (k : nat) : 0 <= x -> 0 <= x ^ Z.of_nat k.
Proof. intros H. now apply Qpower_0_le. Qed.

Lemma pow_ge_1 (x : Q) (k : nat) : 1 <= x -> 1 <= x ^ Z.of_nat k.
Proof. intros H. apply Qpower_1_le; [assumption | lia]. Qed.

(** Strict monotonicity of [x ^ n] in a non-negative base. *)
Lemma pow_base_lt_nat (a b : Q) (k : nat) :
  0 <= a -> a < b -> a ^ Z.of_nat (S k) < b ^ Z.of_nat (S k).
Proof.
  intros Ha Hab. induction k as [|k IH].
  - change (Z.of_nat 1) with 1%Z. now rewrite !Qpower_1_r.
  - rewrite (pow_succ a (S k)), (pow_succ b (S k)).
    pose proof (pow_nonneg a (S k) Ha) as Hp.
    nra.
Qed.

Lemma pow_base_lt (a b : Q) (n : Z) :
  0 <= a -> a < b -> (0 < n)%Z -> a ^ n < b ^ n.
Proof.
  intros Ha Hab Hn.
  destruct (Z.to_nat n) as [|k] eqn:E; [lia|].
  replace n with (Z.of_nat (S k)) by lia.
  now apply pow_base_lt_nat.
Qed.

Lemma gsum_closed (x : Q) (k : nat) :
  x ^ Z.of_nat k - 1 == (x - 1) * gsum x k.
Proof.
  induction k as [|k IH].
  - simpl. ring.
  - rewrite pow_succ. cbn [gsum].
    setoid_replace (x * x ^ Z.of_nat k - 1)
      with (x * (x ^ Z.of_nat k - 1) + (x - 1)) by ring.
    rewrite IH. ring.
Qed.

Lemma gsum_one (x : Q) (k : nat) : x == 1 -> gsum x k == inject_Z (Z.of_nat k).
Proof.
  intros Hx. induction k as [|k IH].
  - reflexivity.
  - cbn [gsum]. rewrite IH, Hx, Nat2Z.inj_succ, <- Z.add_1_l, inject_Z_plus.
    ring.
Qed.

Lemma gsum_nonneg (x : Q) (k : nat) : 0 <= x -> 0 <= gsum x k.
Proof.
  intros Hx. induction k as [|k IH]; cbn [gsum]; [lra | nra].
Qed.

Lemma gsum_ge_1 (x : Q) (k : nat) : 0 <= x -> 1 <= gsum x (S k).
Proof.
  intros Hx. cbn [gsum]. pose proof (gsum_nonneg x k Hx). nra.
Qed.

Lemma gsum_le (x y : Q) (k : nat) :
  0 <= x -> x <= y -> gsum x k <= gsum y k.
Proof.
  intros Hx Hxy. induction k as [|k IH]; cbn [gsum]; [lra|].
  pose proof (gsum_nonneg x k Hx). nra.
Qed.

Lemma gsum_lt (x y : Q) (k : nat) :
  0 <= x -> x < y -> gsum x (S (S k)) < gsum y (S (S k)).
Proof.
  intros Hx Hxy.
  pose proof (gsum_ge_1 x k Hx) as H1.
  assert (Hy : 0 <= y) by lra.
  pose proof (gsum_le x y (S k) Hx (Qlt_le_weak _ _ Hxy)) as H2.
  change (1 + x * gsum x (S k) < 1 + y * gsum y (S k)).
  set (A := gsum x (S k)) in *. set (B := gsum y (S k)) in *.
  clearbody A B.
  assert (HB : 0 < B) by lra.
  assert (x * A <= x * B).
  { rewrite (Qmult_comm x A), (Qmult_comm x B).
    apply Qmult_le_compat_r; assumption. }
  assert (x * B < y * B) by (apply Qmult_lt_compat_r; assumption).
  lra.
Qed.

(** For a growth factor of at least one the sum of [k] terms is at most [k]
    times the largest power. *)
Lemma gsum_bound (x : Q) (k : nat) :
  1 <= x -> gsum x k <= inject_Z (Z.of_nat k) * x ^ Z.of_nat k.
Proof.
  intros Hx. induction k as [|k IH].
  - discriminate.
  - cbn [gsum]. rewrite pow_succ.
    rewrite Nat2Z.inj_succ, <- Z.add_1_l, inject_Z_plus.
    pose proof (pow_ge_1 x k Hx) as Hp.
    assert (Hk : 0 <= inject_Z (Z.of_nat k)).
    { change 0 with (inject_Z 0). rewrite <- Zle_Qle. lia. }
    set (P := x ^ Z.of_nat k) in *. set (K := inject_Z (Z.of_nat k)) in *.
    set (G := gsum x k) in *. clearbody P K G.
    change (inject_Z 1) with 1.
    assert (H1 : x * G <= x * (K * P)).
    { rewrite (Qmult_comm x G), (Qmult_comm x (K * P)).
      apply Qmult_le_compat_r; lra. }
    assert (H2 : 1 <= x * P).
    { setoid_replace 1 with (1 * 1) by ring.
      apply Qmult_le_compat_nonneg; split; lra. }
    setoid_replace ((1 + K) * (x * P)) with (x * P + x * (K * P)) by ring.
    lra.
Qed.

End Powers.

(** ** The code against the closed forms *)

Section CodeFacts.

Lemma pow_ok (b : Q) (n : Z) : (0 <= n)%Z -> Py.pow b n = Ok (b ^ n).
Proof.
  intros Hn. unfold Py.pow.
  replace (n <? 0)%Z with false by (symmetry; apply Z.ltb_ge; exact Hn).
  now rewrite andb_false_r.
Qed.

Lemma div_ok (a b : Q) : ~ b == 0 -> Py.div a b = Ok (a / b).
Proof.
  intros Hb. unfold Py.div.
  destruct (Qeq_bool b 0) eqn:E; [|reflexivity].
  apply Qeq_bool_iff in E. contradiction.
Qed.

Lemma div_zero (a b : Q) : b == 0 -> Py.div a b = Raise ZeroDivisionError.
Proof.
  intros Hb. unfold Py.div. now rewrite (Qeq_bool_zero b Hb).
Qed.

Lemma inject_Z_pos (n : Z) : (0 < n)%Z -> 0 < inject_Z n.
Proof. intros H. change 0 with (inject_Z 0). now rewrite <- Zlt_Qlt. Qed.

Lemma growth_gt_1 (rate : Q) (n : Z) :
  0 < rate -> (0 < n)%Z -> 1 < (1 + rate / 12) ^ n.
Proof.
  intros Hr Hn. apply Qpower_1_lt; [|assumption].
  assert (0 < rate / 12) by (apply Qlt_shift_div_l; lra). lra.
Qed.

Lemma monthly_rate_neq_0 (rate : Q) : ~ rate == 0 -> ~ rate / 12 == 0.
Proof.
  intros H E. apply H.
  setoid_replace rate with (rate / 12 * 12) by field. rewrite E. ring.
Qed.

(** With a zero rate the payment is the straight-line one; it is defined as
    soon as the term is not zero. *)
Lemma mortgage_zero_rate (principal rate : Q) (years : Z) :
  rate == 0 -> (0 < years)%Z ->
  monthly_mortgage_payment principal rate years
  = Ok (principal / inject_Z (years * 12)).
Proof.
  intros Hr Hy. unfold monthly_mortgage_payment.
  rewrite (Qeq_bool_zero rate Hr).
  apply div_ok. pose proof (inject_Z_pos (years * 12) ltac:(lia)). lra.
Qed.

(** With a positive rate the amortisation formula is defined: its
    denominator is positive. *)
Lemma mortgage_pos_rate (principal rate : Q) (years : Z) :
  0 < rate -> (0 < years)%Z ->
  monthly_mortgage_payment principal rate years
  = Ok (principal * (rate / 12 * (1 + rate / 12) ^ (years * 12))
        / ((1 + rate / 12) ^ (years * 12) - 1)).
Proof.
  intros Hr Hy. unfold monthly_mortgage_payment.
  rewrite (Qeq_bool_pos rate Hr).
  rewrite pow_ok by lia. cbn [Py.bind].
  apply div_ok.
  pose proof (growth_gt_1 rate (years * 12) Hr ltac:(lia)). lra.
Qed.

Lemma mortgage_spec (principal rate : Q) (years : Z) :
  0 <= rate -> (0 < years)%Z ->
  exists v, monthly_mortgage_payment principal rate years = Ok v /\
            v == Spec.monthlyMortgagePayment principal rate years.
Proof.
  intros Hr Hy. unfold Spec.monthlyMortgagePayment.
  destruct (Qeq_bool rate 0) eqn:E.
  - apply Qeq_bool_iff in E. eexists; split.
    + now apply mortgage_zero_rate.
    + reflexivity.
  - apply Qeq_bool_false_neq in E. assert (Hpos : 0 < rate) by lra.
    eexists; split.
    + now apply mortgage_pos_rate.
    + pose proof (growth_gt_1 rate (years * 12) Hpos ltac:(lia)).
      field. lra.
Qed.

Lemma lump_sum_ok (pv rate : Q) (years : Z) :
  (0 <= years)%Z ->
  fv_lump_sum pv rate years = Ok (Spec.futureValueLumpSum pv rate years).
Proof.
  intros Hy. unfold fv_lump_sum. now rewrite pow_ok.
Qed.

Lemma annuity_spec (pmt rate : Q) (years : Z) :
  (0 <= years)%Z ->
  exists v, fv_monthly_annuity pmt rate years = Ok v /\
            v == Spec.futureValueMonthlyAnnuity pmt rate years.
Proof.
  intros Hy. unfold fv_monthly_annuity, Spec.futureValueMonthlyAnnuity.
  destruct (Qeq_bool rate 0) eqn:E.
  - eexists; split; reflexivity.
  - apply Qeq_bool_false_neq in E.
    pose proof (monthly_rate_neq_0 rate E) as Hr.
    rewrite pow_ok by lia. cbn [Py.bind].
    rewrite div_ok by assumption. cbn [Py.bind].
    eexists; split; [reflexivity|]. field. exact E.
Qed.

(** The annuity factor is a geometric sum of the monthly growth factor, in
    both branches. *)
Lemma annuity_gsum (pmt rate : Q) (k : nat) (years : Z) :
  (years * 12)%Z = Z.of_nat k ->
  Spec.futureValueMonthlyAnnuity pmt rate years
  == pmt * gsum (1 + rate / 12) k.
Proof.
  intros Hk. unfold Spec.futureValueMonthlyAnnuity. rewrite Hk.
  destruct (Qeq_bool rate 0) eqn:E.
  - apply Qeq_bool_iff in E. rewrite gsum_one; [reflexivity|].
    rewrite E. reflexivity.
  - apply Qeq_bool_false_neq in E.
    pose proof (monthly_rate_neq_0 rate E) as Hr.
    rewrite gsum_closed. field. exact E.
Qed.

End CodeFacts.

(** ** The scenario evaluator *)

Section Evaluate.

#[local] Instance futureValueMonthlyAnnuity_proper :
  Proper (Qeq ==> Qeq ==> eq ==> Qeq) Spec.futureValueMonthlyAnnuity.
Proof.
  intros a a' Ha r r' Hr y y' <-. unfold Spec.futureValueMonthlyAnnuity.
  assert (Eb : Qeq_bool r 0 = Qeq_bool r' 0).
  { destruct (Qeq_bool r' 0) eqn:E'.
    - apply Qeq_bool_iff in E'. apply Qeq_bool_iff. now rewrite Hr.
    - apply Qeq_bool_false_neq in E'.
      destruct (Qeq_bool r 0) eqn:E; [|reflexivity].
      apply Qeq_bool_iff in E. exfalso. apply E'. now rewrite <- Hr. }
  rewrite <- Eb. destruct (Qeq_bool r 0); [now rewrite Ha | now rewrite Ha, Hr].
Qed.

(** Whenever the mortgage rate is not negative and the term is positive,
    [buy_vs_rent_wealth] returns, and its three components are the closed
    forms of section 4.3. *)
Lemma evaluate_spec (p : params) :
  0 <= mortgage_rate p -> (0 < term_years p)%Z ->
  exists o, buy_vs_rent_wealth p = Ok o /\
            buy_wealth o == Spec.buyWealth p /\
            rent_wealth o == Spec.rentWealth p /\
            diff o == buy_wealth o - rent_wealth o.
Proof.
  intros Hm Ht. unfold buy_vs_rent_wealth.
  destruct (mortgage_spec (house_price p * (1 - down_pct p))
              (mortgage_rate p) (term_years p) Hm Ht) as (m & Em & Hm').
  rewrite Em. cbn [Py.bind].
  rewrite !lump_sum_ok by lia. cbn [Py.bind].
  destruct (annuity_spec (m - house_price p * rent_yield p / 12)
              (invest_return p) (term_years p) ltac:(lia)) as (a & Ea & Ha).
  rewrite Ea. cbn [Py.bind].
  eexists; split; [reflexivity|]. cbn [buy_wealth rent_wealth diff].
  split; [reflexivity|]. split; [|reflexivity].
  unfold Spec.rentWealth, Spec.monthlyInvestableDifference.
  rewrite Ha, Hm'. reflexivity.
Qed.

Lemma valid_runs (p : params) :
  Spec.valid p -> 0 <= mortgage_rate p /\ (0 < term_years p)%Z.
Proof. unfold Spec.valid. tauto. Qed.

End Evaluate.

(** *** Moderate inputs are inputs the functions run on *)

Lemma moderate_rate_nonneg (x : Q) : Moderate.rate x -> 0 <= x.
Proof. intros [H | [H _]]; lra. Qed.

Lemma moderate_amount_pos (x : Q) : Moderate.amount x -> 0 < x.
Proof. intros [H _]; lra. Qed.

Lemma moderate_years_pos (y : Z) : Moderate.years y -> (0 < y)%Z.
Proof. unfold Moderate.years; lia. Qed.

Lemma moderate_runs (p : params) :
  Moderate.inputs p -> 0 <= mortgage_rate p /\ (0 < term_years p)%Z.
Proof.
  intros (_ & _ & Hm & Ht & _). split.
  - now apply moderate_rate_nonneg.
  - now apply moderate_years_pos.
Qed.

Lemma base_case_valid : Spec.valid base_case.
Proof.
  unfold Spec.valid, base_case; cbn. repeat split; try lra; try lia.
Defined.

Lemma base_case_moderate : Moderate.inputs base_case.
Proof.
  unfold Moderate.inputs, Moderate.amount, Moderate.rate, Moderate.years,
    Moderate.fraction, base_case; cbn.
  split; [split; lra|]. split; [split; lra|].
  split; [right; split; lra|]. split; [lia|].
  split; [split; lra|]. split; [right; split; lra|]. split; lra.
Defined.

(** ** Theorems *)

(** C1, as stated, fails: on binary64 numbers the base case with a mortgage
    rate of [1e-17] satisfies the ScenarioParameters invariants, yet
    [buy_vs_rent_wealth] returns nothing: [1 + r] is [1], the denominator
    [(1 + r) ** n - 1] of line 25 is [0.0], and the call raises
    [ZeroDivisionError], whatever the C library's [pow] computes. *)
Lemma valid_input_raises :
  B64.valid B64.tiny_rate = true /\
  forall libm,
    B64.buy_vs_rent_wealth libm B64.tiny_rate
    = B64.Raise B64.ZeroDivisionError.
Proof.
  split; [vm_compute; reflexivity | intros libm; vm_compute; reflexivity].
Qed.

(** C1, amended: for every moderate parameter set (a price between 1 and
    ten million, a down payment fraction from 0 to 1, a term of 1 to 50
    years, mortgage rate and investment return 0 or between 0.0001 and 0.2,
    rent yield and appreciation between 0 and 0.2), [buy_vs_rent_wealth]
    returns a result whose buy wealth is the appreciated house price, whose
    rent wealth is the grown down payment plus the annuity of the monthly
    mortgage payment less the monthly rent, and whose difference is buy
    wealth minus rent wealth; the equalities are those of exact arithmetic,
    which the binary64 results follow up to rounding. *)
Theorem evaluate_components (p : params) :
  Moderate.inputs p ->
  exists o, buy_vs_rent_wealth p = Ok o /\
    buy_wealth o ==
      Spec.futureValueLumpSum (house_price p) (home_appreciation p)
        (term_years p) /\
    rent_wealth o ==
      Spec.futureValueLumpSum (house_price p * down_pct p) (invest_return p)
        (term_years p)
      + Spec.futureValueMonthlyAnnuity
          (Spec.monthlyMortgagePayment (house_price p * (1 - down_pct p))
             (mortgage_rate p) (term_years p)
           - house_price p * rent_yield p / 12)
          (invest_return p) (term_years p) /\
    diff o == buy_wealth o - rent_wealth o.
Proof.
  intros Hv. destruct (moderate_runs p Hv) as [Hm Ht].
  exact (evaluate_spec p Hm Ht).
Qed.

Lemma evaluate_components_witness :
  Moderate.inputs base_case /\
  exists o, buy_vs_rent_wealth base_case = Ok o /\
    buy_wealth o == Spec.futureValueLumpSum 800000 (2 # 100) 30 /\
    rent_wealth o ==
      Spec.futureValueLumpSum (800000 * (10 # 100)) (6 # 100) 30
      + Spec.futureValueMonthlyAnnuity
          (Spec.monthlyMortgagePayment (800000 * (1 - (10 # 100)))
             (4 # 100) 30
           - 800000 * (45 # 1000) / 12)
          (6 # 100) 30 /\
    diff o == buy_wealth o - rent_wealth o.
Proof.
  split;
    [exact base_case_moderate
    | exact (evaluate_components base_case base_case_moderate)].
Defined.

(** In exact arithmetic the payment is the closed form of section 4.1, for
    every rate that is not negative and every positive term. *)
Lemma payment_closed_form (principal annual_rate : Q) (years : Z) :
  0 <= annual_rate -> (0 < years)%Z ->
  exists v, monthly_mortgage_payment principal annual_rate years = Ok v /\
    (annual_rate == 0 -> v == principal / inject_Z (years * 12)) /\
    (0 < annual_rate ->
     v == principal * (annual_rate / 12)
            * (1 + annual_rate / 12) ^ (years * 12)
          / ((1 + annual_rate / 12) ^ (years * 12) - 1)).
Proof.
  intros Hr Hy.
  destruct (Qeq_bool annual_rate 0) eqn:E.
  - apply Qeq_bool_iff in E. eexists; split; [|split].
    + now apply mortgage_zero_rate.
    + reflexivity.
    + intros Hpos. lra.
  - apply Qeq_bool_false_neq in E. assert (Hpos : 0 < annual_rate) by lra.
    eexists; split; [|split].
    + now apply mortgage_pos_rate.
    + intros Hz. contradiction.
    + intros _.
      pose proof (growth_gt_1 annual_rate (years * 12) Hpos ltac:(lia)).
      field. lra.
Qed.

(** C4, as stated, fails: on binary64 numbers, for the principal 720000, the
    rate [1e-17 >= 0] and 30 years, [monthly_mortgage_payment] returns
    neither of the two values: [(1 + r) ** n - 1] is [0.0] and line 25
    raises [ZeroDivisionError], whatever the C library's [pow] computes. *)
Lemma tiny_rate_payment_raises :
  B64.is_nonneg B64.tiny = true /\
  B64.is_positive B64.tiny = true /\
  forall libm,
    B64.monthly_mortgage_payment libm B64.loan B64.tiny 30
    = B64.Raise B64.ZeroDivisionError.
Proof.
  split; [vm_compute; reflexivity|].
  split; [vm_compute; reflexivity|].
  intros libm; vm_compute; reflexivity.
Qed.

(** C4, amended: for every principal between 1 and ten million, annual rate
    that is 0 or between 0.0001 and 0.2, and term of 1 to 50 years, with
    [r = annualRate/12] and [n = years*12], [monthly_mortgage_payment]
    returns [principal / n] when the rate is zero and
    [principal * r*(1+r)^n / ((1+r)^n - 1)] when the rate is positive; the
    equalities are those of exact arithmetic, which the binary64 result
    follows up to rounding. *)
Theorem monthly_mortgage_payment_formula (principal annual_rate : Q)
    (years : Z) :
  Moderate.amount principal -> Moderate.rate annual_rate ->
  Moderate.years years ->
  exists v, monthly_mortgage_payment principal annual_rate years = Ok v /\
    (annual_rate == 0 -> v == principal / inject_Z (years * 12)) /\
    (0 < annual_rate ->
     v == principal * (annual_rate / 12)
            * (1 + annual_rate / 12) ^ (years * 12)
          / ((1 + annual_rate / 12) ^ (years * 12) - 1)).
Proof.
  intros _ Hr Hy.
  apply payment_closed_form;
    [now apply moderate_rate_nonneg | now apply moderate_years_pos].
Qed.

Lemma monthly_mortgage_payment_formula_witness :
  (Moderate.amount 720000 /\ Moderate.rate (4 # 100) /\ Moderate.years 30) /\
  exists v, monthly_mortgage_payment 720000 (4 # 100) 30 = Ok v /\
    ((4 # 100) == 0 -> v == 720000 / inject_Z (30 * 12)) /\
    (0 < 4 # 100 ->
     v == 720000 * ((4 # 100) / 12) * (1 + (4 # 100) / 12) ^ (30 * 12)
          / ((1 + (4 # 100) / 12) ^ (30 * 12) - 1)).
Proof.
  assert (Ha : Moderate.amount 720000) by (split; lra).
  assert (Hr : Moderate.rate (4 # 100)) by (right; split; lra).
  assert (Hy : Moderate.years 30) by (unfold Moderate.years; lia).
  split; [split; [exact Ha | split; [exact Hr | exact Hy]]|].
  exact (monthly_mortgage_payment_formula 720000 (4 # 100) 30 Ha Hr Hy).
Defined.

Lemma div_mul_ge (p n d k : Q) :
  0 < d -> p * d <= n * k -> p <= n / d * k.
Proof.
  intros Hd H.
  setoid_replace (n / d * k) with (n * k / d) by (field; lra).
  now apply Qle_shift_div_l.
Qed.

(** In exact arithmetic, for a positive principal the payment is positive,
    the total paid at a positive rate is at least the principal, and at a
    zero rate the payment is [principal / (years*12)]. *)
Lemma payment_bounds (principal annual_rate : Q) (years : Z) :
  0 < principal -> 0 <= annual_rate -> (0 < years)%Z ->
  exists v, monthly_mortgage_payment principal annual_rate years = Ok v /\
    0 < v /\
    (0 < annual_rate -> principal <= v * inject_Z years * 12) /\
    (annual_rate == 0 -> v == principal / inject_Z (years * 12)).
Proof.
  intros Hp Hr Hy.
  pose proof (inject_Z_pos (years * 12) ltac:(lia)) as Hn.
  destruct (Qeq_bool annual_rate 0) eqn:E.
  - apply Qeq_bool_iff in E. eexists; split; [|split; [|split]].
    + now apply mortgage_zero_rate.
    + now apply Qlt_shift_div_l; [|lra].
    + intros Hpos. lra.
    + reflexivity.
  - apply Qeq_bool_false_neq in E. assert (Hpos : 0 < annual_rate) by lra.
    pose proof (growth_gt_1 annual_rate (years * 12) Hpos ltac:(lia)) as Hx.
    assert (Hm : 0 < annual_rate / 12) by (apply Qlt_shift_div_l; lra).
    set (r := annual_rate / 12) in *.
    eexists; split; [|split; [|split]].
    + now apply mortgage_pos_rate.
    + fold r. apply Qlt_shift_div_l; [lra|]. rewrite Qmult_0_l.
      apply Qmult_lt_0_compat; [assumption|].
      apply Qmult_lt_0_compat; [assumption | lra].
    + intros _. fold r. rewrite <- Qmult_assoc.
      apply div_mul_ge; [lra|].
      assert (Hk : (years * 12)%Z = Z.of_nat (Z.to_nat (years * 12))) by lia.
      setoid_replace (inject_Z years * 12) with (inject_Z (years * 12))
        by (rewrite inject_Z_mult; reflexivity).
      revert Hx Hn. rewrite Hk. generalize (Z.to_nat (years * 12)) as k.
      intros k Hx Hn.
      rewrite (gsum_closed (1 + r) k).
      pose proof (gsum_bound (1 + r) k ltac:(lra)) as Hb.
      set (X := (1 + r) ^ Z.of_nat k) in *.
      set (K := inject_Z (Z.of_nat k)) in *.
      set (G := gsum (1 + r) k) in *. clearbody X K G.
      setoid_replace (principal * ((1 + r - 1) * G))
        with (principal * r * G) by ring.
      setoid_replace (principal * (r * X) * K)
        with (principal * r * (K * X)) by ring.
      rewrite !(Qmult_comm (principal * r)).
      apply Qmult_le_compat_r; [assumption|].
      apply Qlt_le_weak, Qmult_lt_0_compat; assumption.
    + intros Hz. contradiction.
Qed.

(** C5, as stated, fails: on binary64 numbers, for the principal
    [720000 > 0], the rate [1e-17 >= 0] and 30 years,
    [monthly_mortgage_payment] returns no payment at all, positive or not:
    line 25 divides by [0.0]. *)
Lemma tiny_rate_no_payment :
  B64.is_positive B64.loan = true /\
  B64.is_nonneg B64.tiny = true /\
  (0 < 30)%Z /\
  forall libm v,
    B64.monthly_mortgage_payment libm B64.loan B64.tiny 30 <> B64.Ok v.
Proof.
  split; [vm_compute; reflexivity|].
  split; [vm_compute; reflexivity|].
  split; [lia|].
  intros libm v. vm_compute. discriminate.
Qed.

(** C5, amended: for every principal between 1 and ten million, rate that is
    0 or between 0.0001 and 0.2, and term of 1 to 50 years, the monthly
    payment is positive; with a positive rate the total paid,
    [payment * years * 12], is at least the principal; with a zero rate the
    payment is [principal / (years*12)]. *)
Theorem monthly_mortgage_payment_positive (principal annual_rate : Q)
    (years : Z) :
  Moderate.amount principal -> Moderate.rate annual_rate ->
  Moderate.years years ->
  exists v, monthly_mortgage_payment principal annual_rate years = Ok v /\
    0 < v /\
    (0 < annual_rate -> principal <= v * inject_Z years * 12) /\
    (annual_rate == 0 -> v == principal / inject_Z (years * 12)).
Proof.
  intros Hp Hr Hy.
  apply payment_bounds;
    [now apply moderate_amount_pos | now apply moderate_rate_nonneg
    | now apply moderate_years_pos].
Qed.

Lemma monthly_mortgage_payment_positive_witness :
  (Moderate.amount 720000 /\ Moderate.rate (4 # 100) /\ Moderate.years 30) /\
  exists v, monthly_mortgage_payment 720000 (4 # 100) 30 = Ok v /\
    0 < v /\
    (0 < 4 # 100 -> 720000 <= v * inject_Z 30 * 12) /\
    ((4 # 100) == 0 -> v == 720000 / inject_Z (30 * 12)).
Proof.
  assert (Ha : Moderate.amount 720000) by (split; lra).
  assert (Hr : Moderate.rate (4 # 100)) by (right; split; lra).
  assert (Hy : Moderate.years 30) by (unfold Moderate.years; lia).
  split; [split; [exact Ha | split; [exact Hr | exact Hy]]|].
  exact (monthly_mortgage_payment_positive 720000 (4 # 100) 30 Ha Hr Hy).
Defined.

(** C7, as stated, fails: on binary64 numbers two valid parameter sets that
    differ only in the home appreciation, [0.0 < 1e-17], get the same buy
    wealth: [1 + a] is [1.0] for both.  (An interest-free loan and savings
    without a return, so that no call reaches the C library's [pow].) *)
Lemma buy_wealth_flat :
  B64.valid (B64.flat B64.nought) = true /\
  B64.valid (B64.flat B64.tiny) = true /\
  B64.is_positive B64.tiny = true /\
  forall libm,
    match B64.buy_vs_rent_wealth libm (B64.flat B64.nought),
          B64.buy_vs_rent_wealth libm (B64.flat B64.tiny) with
    | B64.Ok o1, B64.Ok o2 => B64.buy_wealth o1 = B64.buy_wealth o2
    | _, _ => False
    end.
Proof.
  split; [vm_compute; reflexivity|].
  split; [vm_compute; reflexivity|].
  split; [vm_compute; reflexivity|].
  intros libm. vm_compute. reflexivity.
Qed.

(** C7, amended: holding every other parameter fixed, on moderate inputs,
    the buy wealth returned by [buy_vs_rent_wealth] is strictly increasing
    in the home appreciation rate, for two rates at least one millionth
    apart and at most 0.2. *)
Theorem buy_wealth_increasing (p : params) (a1 a2 : Q) :
  Moderate.inputs (with_home_appreciation p a1) ->
  a1 + Moderate.step <= a2 -> a2 <= 1 # 5 ->
  exists o1 o2,
    buy_vs_rent_wealth (with_home_appreciation p a1) = Ok o1 /\
    buy_vs_rent_wealth (with_home_appreciation p a2) = Ok o2 /\
    buy_wealth o1 < buy_wealth o2.
Proof.
  intros Hv Hstep _.
  destruct (moderate_runs _ Hv) as [Hm Ht].
  destruct Hv as (Hp & _ & _ & _ & _ & _ & [Ha _]).
  apply moderate_amount_pos in Hp. cbn in Hp, Hm, Ht, Ha.
  assert (Hlt : a1 < a2) by (unfold Moderate.step in Hstep; lra).
  destruct (evaluate_spec (with_home_appreciation p a1) Hm Ht)
    as (o1 & E1 & B1 & _).
  destruct (evaluate_spec (with_home_appreciation p a2) Hm Ht)
    as (o2 & E2 & B2 & _).
  exists o1, o2. split; [exact E1|]. split; [exact E2|].
  rewrite B1, B2. unfold Spec.buyWealth, Spec.futureValueLumpSum. cbn.
  rewrite !(Qmult_comm (house_price p)).
  apply Qmult_lt_compat_r; [exact Hp|].
  apply pow_base_lt; [lra | lra | exact Ht].
Qed.

Lemma buy_wealth_increasing_witness :
  (Moderate.inputs (with_home_appreciation base_case (2 # 100)) /\
   (2 # 100) + Moderate.step <= 3 # 100 /\ 3 # 100 <= 1 # 5) /\
  exists o1 o2,
    buy_vs_rent_wealth (with_home_appreciation base_case (2 # 100)) = Ok o1 /\
    buy_vs_rent_wealth (with_home_appreciation base_case (3 # 100)) = Ok o2 /\
    buy_wealth o1 < buy_wealth o2.
Proof.
  assert (Hs : (2 # 100) + Moderate.step <= 3 # 100)
    by (unfold Moderate.step; lra).
  assert (Hu : 3 # 100 <= 1 # 5) by lra.
  split; [split; [exact base_case_moderate | split; [exact Hs | exact Hu]]|].
  exact (buy_wealth_increasing base_case (2 # 100) (3 # 100)
           base_case_moderate Hs Hu).
Defined.

Lemma pow_inv (b v : Q) (n : Z) : Py.pow b n = Ok v -> v = b ^ n.
Proof.
  unfold Py.pow. destruct (Qeq_bool b 0 && (n <? 0)%Z); congruence.
Qed.

(** The first component of a returned triple is the value line 53 computes. *)
Lemma evaluate_buy_wealth (p : params) (o : outcome) :
  buy_vs_rent_wealth p = Ok o ->
  buy_wealth o = house_price p * (1 + home_appreciation p) ^ term_years p.
Proof.
  unfold buy_vs_rent_wealth, fv_lump_sum.
  destruct (monthly_mortgage_payment _ _ _) as [m|]; cbn [Py.bind];
    [|discriminate].
  destruct (Py.pow (1 + home_appreciation p) (term_years p)) as [x|] eqn:Ex;
    cbn [Py.bind]; [|discriminate].
  destruct (Py.pow (1 + invest_return p) (term_years p)) as [y|];
    cbn [Py.bind]; [|discriminate].
  destruct (fv_monthly_annuity _ _ _) as [a|]; cbn [Py.bind]; [|discriminate].
  intros [= <-]. cbn. now rewrite (pow_inv _ _ _ Ex).
Qed.

(** C10: two parameter sets that agree on house price, home appreciation and
    term get the same buy wealth, whatever their down payment, mortgage
    rate, rent yield and investment return are. *)
Theorem buy_wealth_independent (p1 p2 : params) :
  house_price p1 == house_price p2 ->
  home_appreciation p1 == home_appreciation p2 ->
  term_years p1 = term_years p2 ->
  (forall o1 o2,
     buy_vs_rent_wealth p1 = Ok o1 -> buy_vs_rent_wealth p2 = Ok o2 ->
     buy_wealth o1 == buy_wealth o2) /\
  (Spec.valid p1 -> Spec.valid p2 ->
   exists o1 o2,
     buy_vs_rent_wealth p1 = Ok o1 /\ buy_vs_rent_wealth p2 = Ok o2 /\
     buy_wealth o1 == buy_wealth o2).
Proof.
  intros Hh Ha Ht.
  assert (Hsame : forall o1 o2,
             buy_vs_rent_wealth p1 = Ok o1 -> buy_vs_rent_wealth p2 = Ok o2 ->
             buy_wealth o1 == buy_wealth o2).
  { intros o1 o2 E1 E2.
    rewrite (evaluate_buy_wealth p1 o1 E1), (evaluate_buy_wealth p2 o2 E2).
    now rewrite Hh, Ha, Ht. }
  split; [exact Hsame|].
  intros V1 V2.
  destruct (valid_runs p1 V1) as [Hm1 Ht1].
  destruct (valid_runs p2 V2) as [Hm2 Ht2].
  destruct (evaluate_spec p1 Hm1 Ht1) as (o1 & E1 & _).
  destruct (evaluate_spec p2 Hm2 Ht2) as (o2 & E2 & _).
  exists o1, o2. split; [exact E1|]. split; [exact E2|].
  now apply Hsame.
Qed.

Lemma other_financing_valid : Spec.valid other_financing.
Proof.
  unfold Spec.valid, other_financing; cbn. repeat split; try lra; try lia.
Defined.

Lemma buy_wealth_independent_witness :
  (house_price base_case == house_price other_financing /\
   home_appreciation base_case == home_appreciation other_financing /\
   term_years base_case = term_years other_financing) /\
  exists o1 o2,
    buy_vs_rent_wealth base_case = Ok o1 /\
    buy_vs_rent_wealth other_financing = Ok o2 /\
    buy_wealth o1 == buy_wealth o2.
Proof.
  split; [split; [reflexivity | split; reflexivity]|].
  apply (buy_wealth_independent base_case other_financing);
    [reflexivity | reflexivity | reflexivity
    | exact base_case_valid | exact other_financing_valid].
Defined.

(** C8, as stated, fails: on binary64 numbers, with the whole price paid
    down (down payment fraction 1, loan [0.0]), the mortgage rate
    [1e-17 >= 0] and a term of 30 years, line 25 computes
    [0.0 * (r * 1.0) / 0.0]: [monthly_mortgage_payment], and with it
    [buy_vs_rent_wealth], raises [ZeroDivisionError], whatever the C
    library's [pow] computes. *)
Lemma paid_down_raises :
  B64.down_pct B64.paid_down = B64.unit /\
  B64.is_nonneg (B64.mortgage_rate B64.paid_down) = true /\
  (0 < B64.term_years B64.paid_down)%Z /\
  forall libm,
    B64.monthly_mortgage_payment libm B64.nought
      (B64.mortgage_rate B64.paid_down) (B64.term_years B64.paid_down)
    = B64.Raise B64.ZeroDivisionError /\
    B64.buy_vs_rent_wealth libm B64.paid_down
    = B64.Raise B64.ZeroDivisionError.
Proof.
  split; [reflexivity|].
  split; [vm_compute; reflexivity|].
  split; [vm_compute; reflexivity|].
  intros libm. split; vm_compute; reflexivity.
Qed.

(** C8, amended: with the whole price paid down (down payment fraction 1,
    loan principal 0), on moderate inputs (a mortgage rate that is 0 or
    between 0.0001 and 0.2, a term of 1 to 50 years) the monthly mortgage
    payment is 0 and [buy_vs_rent_wealth] still returns a result: no
    division by zero is raised. *)
Theorem full_down_payment (p : params) :
  Moderate.inputs p -> down_pct p == 1 ->
  (exists m,
     monthly_mortgage_payment (house_price p * (1 - down_pct p))
       (mortgage_rate p) (term_years p) = Ok m /\ m == 0) /\
  (exists o, buy_vs_rent_wealth p = Ok o /\
             diff o == buy_wealth o - rent_wealth o).
Proof.
  intros Hv Hd. destruct (moderate_runs p Hv) as [Hm Ht]. split.
  - assert (Hl : house_price p * (1 - down_pct p) == 0) by (rewrite Hd; ring).
    destruct (Qeq_bool (mortgage_rate p) 0) eqn:E.
    + apply Qeq_bool_iff in E. eexists; split.
      * now apply mortgage_zero_rate.
      * rewrite Hl. unfold Qdiv. ring.
    + apply Qeq_bool_false_neq in E.
      assert (Hpos : 0 < mortgage_rate p) by lra.
      eexists; split.
      * now apply mortgage_pos_rate.
      * rewrite Hl. unfold Qdiv. ring.
  - destruct (evaluate_spec p Hm Ht) as (o & E & _ & _ & Hdiff).
    exists o. split; assumption.
Qed.

Lemma paid_in_full_moderate : Moderate.inputs (with_down_pct base_case 1).
Proof.
  unfold Moderate.inputs, Moderate.amount, Moderate.rate, Moderate.years,
    Moderate.fraction, base_case; cbn.
  split; [split; lra|]. split; [split; lra|].
  split; [right; split; lra|]. split; [lia|].
  split; [split; lra|]. split; [right; split; lra|]. split; lra.
Defined.

Lemma full_down_payment_witness :
  (Moderate.inputs (with_down_pct base_case 1) /\
   down_pct (with_down_pct base_case 1) == 1) /\
  (exists m,
     monthly_mortgage_payment (800000 * (1 - 1)) (4 # 100) 30 = Ok m /\
     m == 0) /\
  (exists o, buy_vs_rent_wealth (with_down_pct base_case 1) = Ok o /\
             diff o == buy_wealth o - rent_wealth o).
Proof.
  split; [split; [exact paid_in_full_moderate | reflexivity]|].
  exact (full_down_payment (with_down_pct base_case 1)
           paid_in_full_moderate (Qeq_refl 1)).
Defined.

(** C2, as stated, fails: with nothing paid down and a mortgage payment
    below the rent, the renter's monthly contribution is negative (-1000),
    and a higher investment return makes the rent wealth smaller: -144000 at
    a return of 0, about -319062 at 12 percent. *)
Lemma rent_wealth_not_increasing :
  Spec.valid (with_invest_return interest_free 0) /\
  Spec.valid (with_invest_return interest_free (12 # 100)) /\
  0 < 12 # 100 /\
  match buy_vs_rent_wealth (with_invest_return interest_free 0),
        buy_vs_rent_wealth (with_invest_return interest_free (12 # 100)) with
  | Ok o1, Ok o2 => rent_wealth o2 < rent_wealth o1
  | _, _ => False
  end.
Proof.
  split; [|split; [|split]].
  - unfold Spec.valid; cbn. repeat split; try lra; try lia.
  - unfold Spec.valid; cbn. repeat split; try lra; try lia.
  - lra.
  - vm_compute. reflexivity.
Qed.

(** In exact arithmetic the rent wealth grows with the investment return
    whenever the monthly investable difference (mortgage payment less rent)
    is not negative and either it or the down payment is positive. *)
Lemma rent_wealth_order (p : params) (r1 r2 : Q) :
  0 < house_price p -> 0 <= down_pct p ->
  0 <= mortgage_rate p -> (0 < term_years p)%Z ->
  0 <= r1 -> r1 < r2 ->
  0 <= Spec.monthlyInvestableDifference p ->
  0 < down_pct p \/ 0 < Spec.monthlyInvestableDifference p ->
  exists o1 o2,
    buy_vs_rent_wealth (with_invest_return p r1) = Ok o1 /\
    buy_vs_rent_wealth (with_invest_return p r2) = Ok o2 /\
    rent_wealth o1 < rent_wealth o2.
Proof.
  intros Hp Hd0 Hm Ht Hr Hlt Hc Hstrict.
  destruct (evaluate_spec (with_invest_return p r1) Hm Ht)
    as (o1 & E1 & _ & R1 & _).
  destruct (evaluate_spec (with_invest_return p r2) Hm Ht)
    as (o2 & E2 & _ & R2 & _).
  exists o1, o2. split; [exact E1|]. split; [exact E2|].
  rewrite R1, R2. unfold Spec.rentWealth. cbn.
  change (Spec.monthlyInvestableDifference (with_invest_return p r1))
    with (Spec.monthlyInvestableDifference p).
  change (Spec.monthlyInvestableDifference (with_invest_return p r2))
    with (Spec.monthlyInvestableDifference p).
  set (c := Spec.monthlyInvestableDifference p) in *.
  destruct (Z.to_nat (term_years p * 12)) as [|[|k]] eqn:Ek; try lia.
  assert (Hk : (term_years p * 12)%Z = Z.of_nat (S (S k))) by lia.
  rewrite !(annuity_gsum c _ (S (S k)) (term_years p) Hk).
  unfold Spec.futureValueLumpSum.
  assert (Hpow : (1 + r1) ^ term_years p < (1 + r2) ^ term_years p)
    by (apply pow_base_lt; [lra | lra | exact Ht]).
  assert (Hg : gsum (1 + r1 / 12) (S (S k)) < gsum (1 + r2 / 12) (S (S k))).
  { assert (0 <= r1 / 12) by (apply Qle_shift_div_l; lra).
    assert (r1 / 12 < r2 / 12) by (apply Qmult_lt_compat_r; [reflexivity | exact Hlt]).
    apply gsum_lt; lra. }
  set (L := house_price p * down_pct p).
  assert (HL : 0 <= L) by (apply Qmult_le_0_compat; lra).
  set (X1 := (1 + r1) ^ term_years p) in *.
  set (X2 := (1 + r2) ^ term_years p) in *.
  set (G1 := gsum (1 + r1 / 12) (S (S k))) in *.
  set (G2 := gsum (1 + r2 / 12) (S (S k))) in *.
  clearbody X1 X2 G1 G2 c.
  assert (HLle : L * X1 <= L * X2).
  { rewrite !(Qmult_comm L). apply Qmult_le_compat_r; lra. }
  assert (Hcle : c * G1 <= c * G2).
  { rewrite !(Qmult_comm c). apply Qmult_le_compat_r; lra. }
  destruct Hstrict as [Hd | Hc'].
  - assert (0 < L) by (apply Qmult_lt_0_compat; assumption).
    assert (L * X1 < L * X2).
    { rewrite !(Qmult_comm L). apply Qmult_lt_compat_r; assumption. }
    lra.
  - assert (c * G1 < c * G2).
    { rewrite !(Qmult_comm c). apply Qmult_lt_compat_r; assumption. }
    lra.
Qed.

Lemma rent_free_moderate :
  Moderate.inputs (with_invest_return rent_free (6 # 100)).
Proof.
  unfold Moderate.inputs, Moderate.amount, Moderate.rate, Moderate.years,
    Moderate.fraction, rent_free; cbn.
  split; [split; lra|]. split; [split; lra|].
  split; [left; reflexivity|]. split; [lia|].
  split; [split; lra|]. split; [right; split; lra|]. split; lra.
Defined.

Lemma rent_free_difference : 0 <= Spec.monthlyInvestableDifference rent_free.
Proof. vm_compute. discriminate. Defined.

(** C2, amended: holding every other parameter fixed, on moderate inputs,
    the rent wealth returned by [buy_vs_rent_wealth] is strictly increasing
    in the investment return, for two returns at least one millionth apart,
    whenever the monthly investable difference (mortgage payment less rent)
    is not negative and either it is at least 1 or the down payment
    fraction is at least 0.01. *)
Theorem rent_wealth_increasing (p : params) (r1 r2 : Q) :
  Moderate.inputs (with_invest_return p r1) -> Moderate.rate r2 ->
  r1 + Moderate.step <= r2 ->
  0 <= Spec.monthlyInvestableDifference p ->
  1 # 100 <= down_pct p \/ 1 <= Spec.monthlyInvestableDifference p ->
  exists o1 o2,
    buy_vs_rent_wealth (with_invest_return p r1) = Ok o1 /\
    buy_vs_rent_wealth (with_invest_return p r2) = Ok o2 /\
    rent_wealth o1 < rent_wealth o2.
Proof.
  intros Hv _ Hstep Hc Hstrict.
  destruct (moderate_runs _ Hv) as [Hm Ht].
  destruct Hv as (Hp & [Hd0 _] & _ & _ & _ & Hr & _).
  apply moderate_amount_pos in Hp. apply moderate_rate_nonneg in Hr.
  cbn in Hp, Hd0, Hm, Ht, Hr.
  apply rent_wealth_order; try assumption.
  - unfold Moderate.step in Hstep; lra.
  - destruct Hstrict as [Hd | Hc']; [left | right]; lra.
Qed.

Lemma rent_wealth_increasing_witness :
  (Moderate.inputs (with_invest_return rent_free (6 # 100)) /\
   Moderate.rate (7 # 100) /\
   (6 # 100) + Moderate.step <= 7 # 100 /\
   0 <= Spec.monthlyInvestableDifference rent_free /\
   (1 # 100 <= down_pct rent_free \/
    1 <= Spec.monthlyInvestableDifference rent_free)) /\
  exists o1 o2,
    buy_vs_rent_wealth (with_invest_return rent_free (6 # 100)) = Ok o1 /\
    buy_vs_rent_wealth (with_invest_return rent_free (7 # 100)) = Ok o2 /\
    rent_wealth o1 < rent_wealth o2.
Proof.
  assert (Hr : Moderate.rate (7 # 100)) by (right; split; lra).
  assert (Hs : (6 # 100) + Moderate.step <= 7 # 100)
    by (unfold Moderate.step; lra).
  assert (Hd : 1 # 100 <= down_pct rent_free) by (cbn; lra).
  split.
  - split; [exact rent_free_moderate|]. split; [exact Hr|].
    split; [exact Hs|].
    split; [exact rent_free_difference | left; exact Hd].
  - exact (rent_wealth_increasing rent_free (6 # 100) (7 # 100)
             rent_free_moderate Hr Hs rent_free_difference
             (or_introl Hd)).
Defined.

(** C3, as stated, fails: on invalid parameters the four operations return
    numbers; nothing is rejected. *)
Lemma invalid_parameters_accepted :
  ~ Spec.valid out_of_range /\
  Py.is_ok (buy_vs_rent_wealth out_of_range) = true /\
  Py.is_ok (monthly_mortgage_payment (-720000) (-(4 # 100)) (-1)) = true /\
  Py.is_ok (fv_lump_sum (-80000) (-(6 # 100)) 0) = true /\
  Py.is_ok (fv_monthly_annuity 437 (-(6 # 100)) (-1)) = true.
Proof.
  split; [|split; [|split; [|split]]].
  - intros (Hp & _). cbn in Hp. lra.
  - destruct (evaluate_spec out_of_range) as (o & E & _);
      [cbn; lra | cbn; lia |].
    now rewrite E.
  - vm_compute. reflexivity.
  - vm_compute. reflexivity.
  - vm_compute. reflexivity.
Qed.

(** *** What decides an exception, on binary64 numbers *)

Section Doubles.

Import PrimFloat.
Local Open Scope float_scope.

Variable libm : float -> float -> float.

Lemma of_int_zero : B64.of_int 0 = B64.Ok 0.
Proof. reflexivity. Qed.

(** The power of [1.0] is [1.0]: CPython answers before the C library is
    asked. *)
Lemma pow_one (n : Z) (n' : float) :
  B64.of_int n = B64.Ok n' -> B64.pow libm 1 n = B64.Ok 1.
Proof.
  intros Hn. unfold B64.pow. rewrite Hn. cbn [B64.bind].
  destruct (n =? 0)%Z; [reflexivity|].
  vm_compute. reflexivity.
Qed.

Lemma div_by_zero (a : float) : B64.div a (1 - 1) = B64.Raise B64.ZeroDivisionError.
Proof. reflexivity. Qed.

(** With a term of 0 both branches of [monthly_mortgage_payment] divide by
    zero: [principal / 0] on line 23, and on line 25 the denominator
    [(1 + r) ** 0 - 1], since CPython gives [x ** 0 = 1.0] for every [x]. *)
Lemma payment_zero_term (principal rate : float) :
  B64.monthly_mortgage_payment libm principal rate 0
  = B64.Raise B64.ZeroDivisionError.
Proof.
  unfold B64.monthly_mortgage_payment. cbv zeta.
  change (0 * 12)%Z with 0%Z.
  destruct (rate =? 0).
  - rewrite of_int_zero. reflexivity.
  - unfold B64.pow. rewrite of_int_zero. cbn [B64.bind Z.eqb].
    apply div_by_zero.
Qed.

Lemma bind_error {A B : Type} (m m' : B64.result A)
    (k k' : A -> B64.result B) :
  B64.error m = B64.error m' ->
  (forall a a', B64.error (k a) = B64.error (k' a')) ->
  B64.error (B64.bind m k) = B64.error (B64.bind m' k').
Proof.
  intros Hm Hk. destruct m, m'; cbn in *; try discriminate; auto.
Qed.

Lemma div_error (a a' b : float) :
  B64.error (B64.div a b) = B64.error (B64.div a' b).
Proof. unfold B64.div. destruct (b =? 0); reflexivity. Qed.

(** Whether each function raises is decided by the rate and the term; the
    amount never matters. *)
Lemma payment_error (principal principal' rate : float) (years : Z) :
  B64.error (B64.monthly_mortgage_payment libm principal rate years)
  = B64.error (B64.monthly_mortgage_payment libm principal' rate years).
Proof.
  unfold B64.monthly_mortgage_payment. cbv zeta.
  destruct (rate =? 0).
  - destruct (B64.of_int (years * 12)) as [n|e]; cbn [B64.bind];
      [|reflexivity].
    apply div_error.
  - destruct (B64.pow libm (1 + rate / 12) (years * 12)) as [x|e];
      cbn [B64.bind]; [|reflexivity].
    apply div_error.
Qed.

Lemma lump_sum_error (pv pv' rate : float) (years : Z) :
  B64.error (B64.fv_lump_sum libm pv rate years)
  = B64.error (B64.fv_lump_sum libm pv' rate years).
Proof.
  unfold B64.fv_lump_sum.
  destruct (B64.pow libm (1 + rate) years); reflexivity.
Qed.

Lemma annuity_error (pmt pmt' rate : float) (years : Z) :
  B64.error (B64.fv_monthly_annuity libm pmt rate years)
  = B64.error (B64.fv_monthly_annuity libm pmt' rate years).
Proof.
  unfold B64.fv_monthly_annuity. cbv zeta.
  destruct (rate =? 0).
  - destruct (B64.of_int (years * 12)); reflexivity.
  - destruct (B64.pow libm (1 + rate / 12) (years * 12)) as [x|e];
      cbn [B64.bind]; [|reflexivity].
    destruct (B64.div (x - 1) (rate / 12)); reflexivity.
Qed.

Lemma evaluate_error (p p' : B64.params) :
  B64.mortgage_rate p = B64.mortgage_rate p' ->
  B64.term_years p = B64.term_years p' ->
  B64.invest_return p = B64.invest_return p' ->
  B64.home_appreciation p = B64.home_appreciation p' ->
  B64.error (B64.buy_vs_rent_wealth libm p)
  = B64.error (B64.buy_vs_rent_wealth libm p').
Proof.
  intros Hm Ht Hi Ha. unfold B64.buy_vs_rent_wealth. cbv zeta.
  rewrite Hm, Ht, Hi, Ha.
  apply bind_error; [apply payment_error|]. intros m m'.
  apply bind_error; [apply lump_sum_error|]. intros b b'.
  apply bind_error; [apply lump_sum_error|]. intros l l'.
  apply bind_error; [apply annuity_error|]. intros a a'.
  reflexivity.
Qed.

End Doubles.

(** C3, amended: the core validates nothing and knows no InvalidParameter
    error.  On binary64 numbers its only exceptions are those of the
    arithmetic: a term of 0 makes [monthly_mortgage_payment], and with it
    [buy_vs_rent_wealth], raise [ZeroDivisionError] whatever the other
    arguments are; and whether [buy_vs_rent_wealth] raises, and which
    exception, is decided by the term, the two rates of return and the
    mortgage rate alone: two parameter sets that agree on these end alike,
    whatever their price, down payment fraction and rent yield are, in or
    out of range. *)
Theorem no_parameter_validation libm (p p' : B64.params) :
  (forall principal rate,
     B64.monthly_mortgage_payment libm principal rate 0
     = B64.Raise B64.ZeroDivisionError) /\
  (B64.term_years p = 0%Z ->
   B64.buy_vs_rent_wealth libm p = B64.Raise B64.ZeroDivisionError) /\
  (B64.mortgage_rate p = B64.mortgage_rate p' ->
   B64.term_years p = B64.term_years p' ->
   B64.invest_return p = B64.invest_return p' ->
   B64.home_appreciation p = B64.home_appreciation p' ->
   B64.error (B64.buy_vs_rent_wealth libm p)
   = B64.error (B64.buy_vs_rent_wealth libm p')).
Proof.
  split; [|split].
  - apply payment_zero_term.
  - intros Ht. unfold B64.buy_vs_rent_wealth. cbv zeta.
    rewrite Ht, payment_zero_term. reflexivity.
  - apply evaluate_error.
Qed.

Lemma no_parameter_validation_witness :
  (B64.term_years B64.no_term = 0%Z /\
   B64.mortgage_rate B64.base_case = B64.mortgage_rate B64.out_of_range /\
   B64.term_years B64.base_case = B64.term_years B64.out_of_range /\
   B64.invest_return B64.base_case = B64.invest_return B64.out_of_range /\
   B64.home_appreciation B64.base_case
   = B64.home_appreciation B64.out_of_range) /\
  forall libm,
    B64.monthly_mortgage_payment libm B64.loan B64.tiny 0
    = B64.Raise B64.ZeroDivisionError /\
    B64.buy_vs_rent_wealth libm B64.no_term
    = B64.Raise B64.ZeroDivisionError /\
    B64.error (B64.buy_vs_rent_wealth libm B64.base_case)
    = B64.error (B64.buy_vs_rent_wealth libm B64.out_of_range).
Proof.
  split.
  - split; [reflexivity|]. split; [reflexivity|]. split; [reflexivity|].
    split; reflexivity.
  - intros libm. split; [|split].
    + apply (no_parameter_validation libm B64.no_term B64.no_term).
    + apply (no_parameter_validation libm B64.no_term B64.no_term).
      reflexivity.
    + apply (no_parameter_validation libm B64.base_case B64.out_of_range);
        reflexivity.
Defined.

(** ** The base case in numbers *)

Lemma within_positive (tol v : Q) (r : result Q) :
  tol < v -> within tol v r -> returns_positive r.
Proof.
  destruct r as [x|e]; cbn [within returns_positive]; [|tauto].
  intros Hv Hx. apply Qabs_Qle_condition in Hx. lra.
Qed.

Lemma within_bounds (tol v lo hi x : Q) :
  lo <= x <= hi -> v - tol <= lo -> hi <= v + tol -> within tol v (Ok x).
Proof.
  intros [Hl Hh] H1 H2. cbn [within]. apply Qabs_Qle_condition. lra.
Qed.

Lemma not_within_above (tol v lo x : Q) :
  lo <= x -> v + tol < lo -> ~ within tol v (Ok x).
Proof.
  intros Hl H1. cbn [within]. intros H. apply Qabs_Qle_condition in H. lra.
Qed.

Lemma not_within_below (tol v hi x : Q) :
  x <= hi -> hi < v - tol -> ~ within tol v (Ok x).
Proof.
  intros Hh H1. cbn [within]. intros H. apply Qabs_Qle_condition in H. lra.
Qed.

Section Enclosure.

Variable D : positive.

Lemma round_dn_le (q : Q) : round_dn D q <= q.
Proof.
  unfold round_dn. rewrite Qmake_Qdiv.
  apply Qle_shift_div_r; [reflexivity|]. apply Qfloor_le.
Qed.

Lemma round_up_ge (q : Q) : q <= round_up D q.
Proof.
  unfold round_up. rewrite Qmake_Qdiv.
  apply Qle_shift_div_l; [reflexivity|]. apply Qle_ceiling.
Qed.

Lemma round_dn_nonneg (q : Q) : 0 <= q -> 0 <= round_dn D q.
Proof.
  intros Hq. unfold round_dn, Qle. cbn [Qnum Qden]. rewrite Z.mul_1_r.
  change (0 * Z.pos D)%Z with (Qfloor 0). apply Qfloor_resp_le.
  apply Qmult_le_0_compat; [exact Hq | discriminate].
Qed.

Lemma pow_dn_sound (x : Q) (p : positive) :
  0 <= x -> 0 <= pow_dn D x p <= Qpower_positive x p.
Proof.
  intros Hx. induction p as [p IH|p IH|]; cbn [pow_dn].
  - destruct IH as [H0 H1].
    set (y := pow_dn D x p) in *. clearbody y.
    assert (Hyy : 0 <= y * y) by (apply Qmult_le_0_compat; assumption).
    pose proof (round_dn_nonneg (y * y) Hyy) as Hr0.
    pose proof (round_dn_le (y * y)) as Hr1.
    split.
    + apply round_dn_nonneg, Qmult_le_0_compat; assumption.
    + eapply Qle_trans; [apply round_dn_le|].
      change (Qpower_positive x p~1)
        with (x * (Qpower_positive x p * Qpower_positive x p)).
      apply Qmult_le_compat_nonneg; split; try lra.
      eapply Qle_trans; [exact Hr1|].
      apply Qmult_le_compat_nonneg; split; assumption.
  - destruct IH as [H0 H1].
    set (y := pow_dn D x p) in *. clearbody y.
    assert (Hyy : 0 <= y * y) by (apply Qmult_le_0_compat; assumption).
    split.
    + now apply round_dn_nonneg.
    + eapply Qle_trans; [apply round_dn_le|].
      change (Qpower_positive x p~0)
        with (Qpower_positive x p * Qpower_positive x p).
      apply Qmult_le_compat_nonneg; split; assumption.
  - split; [exact Hx | apply Qle_refl].
Qed.

Lemma pow_up_sound (x : Q) (p : positive) :
  0 <= x -> Qpower_positive x p <= pow_up D x p.
Proof.
  intros Hx. induction p as [p IH|p IH|]; cbn [pow_up].
  - pose proof (Qpower_pos_positive x p Hx) as H0.
    set (y := pow_up D x p) in *. clearbody y.
    eapply Qle_trans; [|apply round_up_ge].
    change (Qpower_positive x p~1)
      with (x * (Qpower_positive x p * Qpower_positive x p)).
    apply Qmult_le_compat_nonneg; split; try lra.
    + apply Qmult_le_0_compat; assumption.
    + eapply Qle_trans; [|apply round_up_ge].
      apply Qmult_le_compat_nonneg; split; assumption.
  - pose proof (Qpower_pos_positive x p Hx) as H0.
    set (y := pow_up D x p) in *. clearbody y.
    eapply Qle_trans; [|apply round_up_ge].
    change (Qpower_positive x p~0)
      with (Qpower_positive x p * Qpower_positive x p).
    apply Qmult_le_compat_nonneg; split; assumption.
  - apply Qle_refl.
Qed.

(** The rounded powers enclose the exact one. *)
Lemma pow_between (x : Q) (p : positive) (lo hi : Q) :
  0 <= x -> pow_dn D x p = lo -> pow_up D x p = hi ->
  lo <= x ^ Zpos p <= hi.
Proof.
  intros Hx <- <-. change (x ^ Zpos p) with (Qpower_positive x p). split.
  - now apply pow_dn_sound.
  - now apply pow_up_sound.
Qed.

End Enclosure.

Lemma spec_payment_pos (principal rate : Q) (years : Z) :
  0 < rate ->
  Spec.monthlyMortgagePayment principal rate years
  = principal * (rate / 12) * (1 + rate / 12) ^ (years * 12)
    / ((1 + rate / 12) ^ (years * 12) - 1).
Proof.
  intros Hr. unfold Spec.monthlyMortgagePayment.
  now rewrite (Qeq_bool_pos rate Hr).
Qed.

Lemma spec_annuity_pos (pmt rate : Q) (years : Z) :
  0 < rate ->
  Spec.futureValueMonthlyAnnuity pmt rate years
  = pmt * ((1 + rate / 12) ^ (years * 12) - 1) / (rate / 12).
Proof.
  intros Hr. unfold Spec.futureValueMonthlyAnnuity.
  now rewrite (Qeq_bool_pos rate Hr).
Qed.

(** Enclosures of the four powers of the base case. *)
Ltac enclose x p :=
  let lo := eval vm_compute in (pow_dn grain x p) in
  let hi := eval vm_compute in (pow_up grain x p) in
  let H := fresh "Hpow" in
  assert (H : lo <= x ^ Zpos p <= hi)
    by (apply (pow_between grain x p lo hi);
        [discriminate | vm_compute; reflexivity | vm_compute; reflexivity]);
  generalize dependent (x ^ Zpos p).

Lemma payment_enclosed (principal : Q) :
  principal == 720000 ->
  343739012735 # 100000000
  <= principal * ((4 # 100) / 12) * (1 + (4 # 100) / 12) ^ 360
     / ((1 + (4 # 100) / 12) ^ 360 - 1)
  <= 343739012736 # 100000000.
Proof.
  intros ->.
  enclose (1 + (4 # 100) / 12) 360%positive.
  intros X [Hlo Hhi].
  setoid_replace ((4 # 100) / 12) with (1 # 300) by reflexivity.
  split.
  - apply Qle_shift_div_l; lra.
  - apply Qle_shift_div_r; lra.
Qed.

Lemma product_between (a al au b bl bu : Q) :
  0 <= al -> al <= a <= au -> 0 <= bl -> bl <= b <= bu ->
  al * bl <= a * b <= au * bu.
Proof.
  intros Ha [Ha1 Ha2] Hb [Hb1 Hb2]. split.
  - apply Qmult_le_compat_nonneg; split; assumption.
  - apply Qmult_le_compat_nonneg; split; lra.
Qed.

(** The base case, to the cent: the payment, and the three components of the
    returned triple. *)
Lemma base_payment_enclosed :
  exists v, monthly_mortgage_payment 720000 (4 # 100) 30 = Ok v /\
            343739012735 # 100000000 <= v <= 343739012736 # 100000000.
Proof.
  destruct (mortgage_spec 720000 (4 # 100) 30) as (v & E & Hv);
    [lra | lia |].
  exists v. split; [exact E|].
  rewrite Hv, spec_payment_pos by lra.
  apply payment_enclosed. reflexivity.
Qed.

Lemma base_outcome_enclosed :
  exists o, buy_vs_rent_wealth base_case = Ok o /\
    (144908926 # 100 <= buy_wealth o <= 144908927 # 100) /\
    (89884425 # 100 <= rent_wealth o <= 89884426 # 100) /\
    (55024500 # 100 <= diff o <= 55024502 # 100).
Proof.
  destruct (evaluate_spec base_case) as (o & E & HB & HR & HD);
    [cbn; lra | cbn; lia |].
  exists o. split; [exact E|].
  assert (Hbw : 144908926 # 100 <= buy_wealth o <= 144908927 # 100).
  { rewrite HB. unfold Spec.buyWealth, Spec.futureValueLumpSum.
    cbn [house_price home_appreciation term_years base_case].
    enclose (1 + (2 # 100)) 30%positive.
    intros Y [Hlo Hhi]. split; lra. }
  assert (Hrw : 89884425 # 100 <= rent_wealth o <= 89884426 # 100).
  { rewrite HR.
    unfold Spec.rentWealth, Spec.futureValueLumpSum,
      Spec.monthlyInvestableDifference.
    cbn [house_price down_pct mortgage_rate term_years rent_yield
         invest_return base_case].
    rewrite spec_payment_pos, spec_annuity_pos by lra.
    change (30 * 12)%Z with 360%Z.
    pose proof (payment_enclosed (800000 * (1 - (10 # 100))) eq_refl) as Hm.
    revert Hm.
    generalize (800000 * (1 - (10 # 100)) * ((4 # 100) / 12)
                * (1 + (4 # 100) / 12) ^ 360
                / ((1 + (4 # 100) / 12) ^ 360 - 1)).
    intros m Hm.
    enclose (1 + (6 # 100)) 30%positive. intros Z [HZ1 HZ2].
    enclose (1 + (6 # 100) / 12) 360%positive. intros W HW.
    setoid_replace (800000 * (45 # 1000) / 12) with 3000 by reflexivity.
    assert (Ht : exists tl tu,
               tl <= (m - 3000) * (W - 1) <= tu /\
               219682481171622946156570 # 100000000000000000000 <= tl /\
               tu <= 219682481176732999394304 # 100000000000000000000).
    { destruct Hm as [Hm1 Hm2], HW as [HW1 HW2].
      eexists _, _. split; [|split].
      - apply product_between with (al := 43739012735 # 100000000)
          (au := 43739012736 # 100000000)
          (bl := 5022575212262 # 1000000000000)
          (bu := 5022575212264 # 1000000000000);
          [discriminate | split; lra | discriminate | split; lra].
      - discriminate.
      - discriminate. }
    destruct Ht as (tl & tu & Ht & Htl & Htu). revert Ht.
    generalize ((m - 3000) * (W - 1)). intros t [Ht1 Ht2].
    setoid_replace (t / ((6 # 100) / 12)) with (200 * t) by field.
    split; lra. }
  split; [exact Hbw|]. split; [exact Hrw|].
  destruct Hbw, Hrw. rewrite HD. split; lra.
Qed.

(** C9, as stated, fails: the base-case figures of the claim are off by more
    than 0.8 (payment), 800 (buy wealth), 2000 (rent wealth) and 3000
    (difference). *)
Lemma stated_figures_off :
  ~ within (8 # 10) (343652 # 100)
      (monthly_mortgage_payment 720000 (4 # 100) 30) /\
  ~ within 800 1449929
      (component buy_wealth (buy_vs_rent_wealth base_case)) /\
  ~ within 2000 896673
      (component rent_wealth (buy_vs_rent_wealth base_case)) /\
  ~ within 3000 553256
      (component diff (buy_vs_rent_wealth base_case)).
Proof.
  destruct base_payment_enclosed as (v & Ev & Hv1 & Hv2).
  destruct base_outcome_enclosed
    as (o & Eo & [Hb1 Hb2] & [Hr1 Hr2] & [Hd1 Hd2]).
  rewrite Ev, Eo. cbn [component Py.bind].
  split; [|split; [|split]].
  - apply (not_within_above _ _ _ _ Hv1). reflexivity.
  - apply (not_within_below _ _ _ _ Hb2). reflexivity.
  - apply (not_within_above _ _ _ _ Hr1). reflexivity.
  - apply (not_within_below _ _ _ _ Hd2). reflexivity.
Qed.

(** C9, amended: for the base case the monthly mortgage payment on 720000
    is 3437.39 to the cent, the buy wealth is 1,449,089, the rent wealth
    898,844 and the difference 550,245 to the unit; the difference is
    positive (buying ahead). *)
Theorem base_case_figures :
  within (5 # 1000) (343739 # 100)
    (monthly_mortgage_payment 720000 (4 # 100) 30) /\
  within (1 # 2) 1449089
    (component buy_wealth (buy_vs_rent_wealth base_case)) /\
  within (1 # 2) 898844
    (component rent_wealth (buy_vs_rent_wealth base_case)) /\
  within (1 # 2) 550245
    (component diff (buy_vs_rent_wealth base_case)) /\
  returns_positive (component diff (buy_vs_rent_wealth base_case)).
Proof.
  destruct base_payment_enclosed as (v & Ev & Hv).
  destruct base_outcome_enclosed as (o & Eo & Hb & Hr & Hd).
  rewrite Ev, Eo. cbn [component Py.bind].
  assert (Hdiff : within (1 # 2) 550245 (Ok (diff o)))
    by (apply (within_bounds _ _ _ _ _ Hd); discriminate).
  split; [|split; [|split; [|split]]].
  - apply (within_bounds _ _ _ _ _ Hv); discriminate.
  - apply (within_bounds _ _ _ _ _ Hb); discriminate.
  - apply (within_bounds _ _ _ _ _ Hr); discriminate.
  - exact Hdiff.
  - exact (within_positive (1 # 2) 550245 _ eq_refl Hdiff).
Qed.


(** ** The sensitivity tables *)

Section Tables.

Variable scenario : Q -> Q -> params.

Lemma sweep_row_spec (r : Q) (cols : list Q) :
  (forall c, In c cols ->
     Py.is_ok (buy_vs_rent_wealth (scenario r c)) = true) ->
  forall row, exists cells,
    sweep_row (scenario r) cols row = Ok (row ++ cells) /\
    row_cells scenario r cols cells.
Proof.
  induction cols as [|c cols IH]; intros Hok row.
  - exists []. cbn. rewrite app_nil_r. split; [reflexivity|].
    split; [reflexivity|]. intros [|j] c; discriminate.
  - cbn [sweep_row].
    pose proof (Hok c (or_introl eq_refl)) as Hc.
    destruct (buy_vs_rent_wealth (scenario r c)) as [o|e] eqn:E;
      [|discriminate].
    cbn [Py.bind].
    destruct (IH (fun c' H => Hok c' (or_intror H))
                (row ++ [format_rm (diff o)])) as (cells & Ecells & Hlen & Hnth).
    exists (format_rm (diff o) :: cells). split; [|split].
    + rewrite Ecells, <- app_assoc. reflexivity.
    + cbn. now rewrite Hlen.
    + intros [|j] c' Hj; cbn in Hj |- *.
      * injection Hj as <-. exists o. split; [exact E | reflexivity].
      * now apply Hnth.
Qed.

Lemma sweep_spec (rows cols : list Q) :
  (forall r c, In r rows -> In c cols ->
     Py.is_ok (buy_vs_rent_wealth (scenario r c)) = true) ->
  forall data, exists g,
    sweep scenario rows cols data = Ok (data ++ g) /\
    List.length g = List.length rows /\
    forall i r, nth_error rows i = Some r ->
      exists row, nth_error g i = Some row /\
                  row_cells scenario r cols row.
Proof.
  induction rows as [|r rows IH]; intros Hok data.
  - exists []. cbn. rewrite app_nil_r. split; [reflexivity|].
    split; [reflexivity|]. intros [|i] r; discriminate.
  - cbn [sweep].
    destruct (sweep_row_spec r cols (fun c H => Hok r c (or_introl eq_refl) H) [])
      as (row & Erow & Hrow).
    rewrite Erow. cbn [Py.bind app].
    destruct (IH (fun r' c Hr Hc => Hok r' c (or_intror Hr) Hc)
                (data ++ [row])) as (g & Eg & Hlen & Hnth).
    exists (row :: g). split; [|split].
    + rewrite Eg, <- app_assoc. reflexivity.
    + cbn. now rewrite Hlen.
    + intros [|i] r' Hi; cbn in Hi |- *.
      * injection Hi as <-. exists row. split; [reflexivity | exact Hrow].
      * now apply Hnth.
Qed.

End Tables.

(** Each table overrides exactly two of the sidebar inputs. *)
Lemma scenario_of_overrides (base : params) (x y : Q) :
  scenario_of TableA base x y
    = with_mortgage_rate (with_invest_return base x) y /\
  scenario_of TableB base x y
    = with_home_appreciation (with_invest_return base x) y /\
  scenario_of TableC base x y
    = with_rent_yield (with_mortgage_rate base x) y.
Proof. repeat split. Qed.

(** C6, as stated, fails: a table cell is not the difference but its
    [format_rm] text, rounded to a whole number.  For the base case with a
    term of one year, the 1x1 table over investment return 4 percent and
    mortgage rate 3 percent holds the string "RM 24,148", which is not equal
    to the difference (a number, about 24148.16, and not 24148 either). *)
Lemma table_cell_is_text :
  sweep (scenario_of TableA one_year) [4 # 100] [3 # 100] []
    = Ok [["RM 24,148"%string]] /\
  match buy_vs_rent_wealth (scenario_of TableA one_year (4 # 100) (3 # 100))
  with
  | Ok o => py_eq (PyStr "RM 24,148") (PyFloat (diff o)) = false /\
            Qeq_bool (diff o) 24148 = false
  | Raise _ => False
  end.
Proof.
  split.
  - vm_compute. reflexivity.
  - vm_compute. split; reflexivity.
Qed.

(** C6, amended: for each of the three tables of the source (investment
    return by mortgage rate, investment return by home appreciation,
    mortgage rate by rent yield), every base parameter set and all axis
    value sequences on which every evaluation returns, the table has one row
    per row value and one cell per column value, and the cell at
    [rowIndex][colIndex] is [format_rm] of the difference that
    [buy_vs_rent_wealth] returns on the base parameters with the table's two
    fields overridden by [rows[rowIndex]] and [cols[colIndex]]; in
    particular row values [a] and column values [b] give the 1x1 table whose
    cell is [format_rm] of that difference. *)
Theorem table_cells (t : table) (base : params) (rows cols : list Q) :
  (forall r c, In r rows -> In c cols ->
     Py.is_ok (buy_vs_rent_wealth (scenario_of t base r c)) = true) ->
  (exists g,
     sweep (scenario_of t base) rows cols [] = Ok g /\
     List.length g = List.length rows /\
     forall i j r c,
       nth_error rows i = Some r -> nth_error cols j = Some c ->
       exists row o,
         nth_error g i = Some row /\
         List.length row = List.length cols /\
         buy_vs_rent_wealth (scenario_of t base r c) = Ok o /\
         nth_error row j = Some (format_rm (diff o))) /\
  (forall a b, rows = [a] -> cols = [b] ->
     exists o,
       buy_vs_rent_wealth (scenario_of t base a b) = Ok o /\
       sweep (scenario_of t base) rows cols [] = Ok [[format_rm (diff o)]]).
Proof.
  intros Hok. split.
  - destruct (sweep_spec (scenario_of t base) rows cols Hok [])
      as (g & Eg & Hlen & Hrows).
    exists g. split; [exact Eg|]. split; [exact Hlen|].
    intros i j r c Hi Hj.
    destruct (Hrows i r Hi) as (row & Hrow & Hl & Hcells).
    destruct (Hcells j c Hj) as (o & Eo & Hcell).
    exists row, o. repeat split; assumption.
  - intros a b -> ->.
    pose proof (Hok a b (or_introl eq_refl) (or_introl eq_refl)) as Hab.
    destruct (buy_vs_rent_wealth (scenario_of t base a b)) as [o|e] eqn:E;
      [|discriminate].
    exists o. split; [reflexivity|].
    cbn [sweep sweep_row]. rewrite E. reflexivity.
Qed.

Lemma table_cells_witness :
  (forall r c, In r [6 # 100] -> In c [4 # 100] ->
     Py.is_ok (buy_vs_rent_wealth (scenario_of TableA base_case r c)) = true) /\
  exists o,
    buy_vs_rent_wealth (scenario_of TableA base_case (6 # 100) (4 # 100))
      = Ok o /\
    sweep (scenario_of TableA base_case) [6 # 100] [4 # 100] []
      = Ok [[format_rm (diff o)]].
Proof.
  assert (Hok : forall r c, In r [6 # 100] -> In c [4 # 100] ->
            Py.is_ok (buy_vs_rent_wealth (scenario_of TableA base_case r c))
            = true).
  { intros r c [<-|[]] [<-|[]].
    destruct (evaluate_spec (scenario_of TableA base_case (6 # 100) (4 # 100)))
      as (o & E & _); [cbn; lra | cbn; lia |].
    now rewrite E. }
  split; [exact Hok|].
  exact (proj2 (table_cells TableA base_case [6 # 100] [4 # 100] Hok)
           (6 # 100) (4 # 100) eq_refl eq_refl).
Defined.

(** ** The tables of the source return *)

Lemma arange_nonneg (start stop step x : Q) :
  0 <= start -> 0 <= step -> In x (arange start stop step) -> 0 <= x.
Proof.
  intros Hs Hp Hin. unfold arange in Hin.
  apply in_map_iff in Hin. destruct Hin as (i & <- & _).
  assert (0 <= inject_Z (Z.of_nat i)).
  { change 0 with (inject_Z 0). rewrite <- Zle_Qle. lia. }
  assert (0 <= inject_Z (Z.of_nat i) * step)
    by (apply Qmult_le_0_compat; assumption).
  lra.
Qed.

(** On valid sidebar inputs the three tables are built without an error:
    the mortgage rates swept are not negative and the term is positive. *)
Lemma tables_return (base : params) :
  Spec.valid base ->
  Py.is_ok (data_A base) = true /\
  Py.is_ok (data_B base) = true /\
  Py.is_ok (data_C base) = true.
Proof.
  intros Hv. destruct (valid_runs base Hv) as [Hm Ht].
  assert (Hgrid : forall x, In x mr_grid -> 0 <= x).
  { intros x. apply arange_nonneg; lra. }
  assert (Hrun : forall scenario rows cols,
             (forall r c, In r rows -> In c cols ->
                0 <= mortgage_rate (scenario r c) /\
                (0 < term_years (scenario r c))%Z) ->
             Py.is_ok (sweep scenario rows cols []) = true).
  { intros scenario rows cols H.
    destruct (sweep_spec scenario rows cols) with (data := @nil (list string))
      as (g & Eg & _).
    - intros r c Hr Hc. destruct (H r c Hr Hc) as [H1 H2].
      destruct (evaluate_spec (scenario r c) H1 H2) as (o & E & _).
      now rewrite E.
    - now rewrite Eg. }
  split; [|split]; apply Hrun; intros r c Hr Hc; cbn; split;
    try assumption; auto.
Qed.

(** * Further properties of the core functions *)

(** ** Schedules and closed forms *)

Section Schedules.

Lemma gsum_pos (x : Q) (k : nat) : 0 <= x -> 0 < gsum x (S k).
Proof. intros Hx. pose proof (gsum_ge_1 x k Hx). lra. Qed.

Lemma savings_gsum (pmt r : Q) (k : nat) :
  savings pmt r k == pmt * gsum (1 + r) k.
Proof.
  induction k as [|k IH]; cbn [savings gsum]; [ring|].
  rewrite IH. ring.
Qed.

Lemma balance_gsum (principal r pay : Q) (k : nat) :
  balance principal r pay k
  == principal * (1 + r) ^ Z.of_nat k - pay * gsum (1 + r) k.
Proof.
  induction k as [|k IH].
  - cbn. ring.
  - cbn [balance gsum]. rewrite IH, pow_succ. ring.
Qed.

(** The payment times the geometric sum of the growth factors is the
    principal compounded over the term, in both branches. *)
Lemma payment_gsum (principal rate : Q) (years : Z) (k : nat) :
  0 <= rate -> (0 < years)%Z -> (years * 12)%Z = Z.of_nat k ->
  Spec.monthlyMortgagePayment principal rate years * gsum (1 + rate / 12) k
  == principal * (1 + rate / 12) ^ Z.of_nat k.
Proof.
  intros Hr Hy Hk. unfold Spec.monthlyMortgagePayment. rewrite Hk.
  destruct k as [|k]; [lia|].
  destruct (Qeq_bool rate 0) eqn:E.
  - apply Qeq_bool_iff in E.
    assert (Hx : 1 + rate / 12 == 1) by (rewrite E; reflexivity).
    rewrite (gsum_one _ _ Hx), Hx, Qpower_1.
    pose proof (inject_Z_pos (Z.of_nat (S k)) ltac:(lia)).
    field. lra.
  - apply Qeq_bool_false_neq in E. assert (Hpos : 0 < rate) by lra.
    pose proof (growth_gt_1 rate (Z.of_nat (S k)) Hpos ltac:(lia)) as Hx.
    pose proof (gsum_closed (1 + rate / 12) (S k)) as Hc.
    pose proof (gsum_pos (1 + rate / 12) k) as Hg.
    assert (0 < rate / 12) by (apply Qlt_shift_div_l; lra).
    set (X := (1 + rate / 12) ^ Z.of_nat (S k)) in *.
    set (G := gsum (1 + rate / 12) (S k)) in *.
    set (r := rate / 12) in *. clearbody X G r.
    assert (HG : 0 < G) by (apply Hg; lra).
    assert (HX : X - 1 == r * G) by (rewrite Hc; ring).
    assert (Hne : ~ X - 1 == 0) by lra.
    setoid_replace (principal * r * X / (X - 1) * G)
      with (principal * X * (r * G) / (X - 1)) by (field; exact Hne).
    rewrite <- HX. field. exact Hne.
Qed.

End Schedules.

Section PaymentOrder.

Lemma pow_base_le (a b : Q) (k : nat) :
  0 <= a -> a <= b -> a ^ Z.of_nat k <= b ^ Z.of_nat k.
Proof.
  intros Ha Hab. induction k as [|k IH]; [apply Qle_refl|].
  rewrite !pow_succ.
  apply Qmult_le_compat_nonneg; split;
    [exact Ha | exact Hab | now apply pow_nonneg | exact IH].
Qed.

Lemma pow_gt_0 (x : Q) (k : nat) : 0 < x -> 0 < x ^ Z.of_nat k.
Proof. intros Hx. now apply Qpower_0_lt. Qed.

Lemma scale_le (c u v : Q) : 0 <= c -> u <= v -> c * u <= c * v.
Proof.
  intros Hc Huv. rewrite !(Qmult_comm c). now apply Qmult_le_compat_r.
Qed.

Lemma scale_lt (c u v : Q) : 0 < c -> u < v -> c * u < c * v.
Proof.
  intros Hc Huv. rewrite !(Qmult_comm c). now apply Qmult_lt_compat_r.
Qed.

(** [a^k / gsum a k] grows with [a]: cross-multiplied. *)
Lemma cross_le (a b : Q) (k : nat) :
  0 <= a -> a <= b ->
  a ^ Z.of_nat k * gsum b k <= b ^ Z.of_nat k * gsum a k.
Proof.
  intros Ha Hab. induction k as [|k IH].
  - cbn. lra.
  - rewrite !pow_succ. cbn [gsum].
    pose proof (pow_base_le a b k Ha Hab) as Hp.
    pose proof (pow_nonneg a k Ha) as HA.
    set (A := a ^ Z.of_nat k) in *. set (B := b ^ Z.of_nat k) in *.
    set (Ga := gsum a k) in *. set (Gb := gsum b k) in *.
    clearbody A B Ga Gb.
    assert (H1 : a * A <= b * B)
      by (apply Qmult_le_compat_nonneg; split; assumption).
    assert (H2 : a * b * (A * Gb) <= a * b * (B * Ga)).
    { apply scale_le; [|exact IH]. apply Qmult_le_0_compat; lra. }
    setoid_replace (a * A * (1 + b * Gb))
      with (a * A + a * b * (A * Gb)) by ring.
    setoid_replace (b * B * (1 + a * Ga))
      with (b * B + a * b * (B * Ga)) by ring.
    lra.
Qed.

Lemma cross_lt (a b : Q) (k : nat) :
  0 <= a -> a < b ->
  a ^ Z.of_nat (S k) * gsum b (S k) < b ^ Z.of_nat (S k) * gsum a (S k).
Proof.
  intros Ha Hab.
  pose proof (pow_base_lt_nat a b k Ha Hab) as H1.
  pose proof (cross_le a b k Ha (Qlt_le_weak _ _ Hab)) as IH.
  rewrite !pow_succ in *. cbn [gsum].
  set (A := a ^ Z.of_nat k) in *. set (B := b ^ Z.of_nat k) in *.
  set (Ga := gsum a k) in *. set (Gb := gsum b k) in *.
  clearbody A B Ga Gb.
  assert (H2 : a * b * (A * Gb) <= a * b * (B * Ga)).
  { apply scale_le; [|exact IH]. apply Qmult_le_0_compat; lra. }
  setoid_replace (a * A * (1 + b * Gb))
    with (a * A + a * b * (A * Gb)) by ring.
  setoid_replace (b * B * (1 + a * Ga))
    with (b * B + a * b * (B * Ga)) by ring.
  lra.
Qed.

(** [x^k / gsum x k] falls as [k] grows: cross-multiplied. *)
Lemma ratio_lt (x : Q) (k d : nat) :
  0 < x ->
  x ^ Z.of_nat (k + S d) * gsum x k < x ^ Z.of_nat k * gsum x (k + S d).
Proof.
  intros Hx. induction d as [|d IH].
  - rewrite Nat.add_1_r, pow_succ. cbn [gsum].
    pose proof (pow_gt_0 x k Hx) as HX.
    set (X := x ^ Z.of_nat k) in *. set (G := gsum x k) in *.
    clearbody X G.
    setoid_replace (X * (1 + x * G)) with (X + x * X * G) by ring. lra.
  - replace (k + S (S d))%nat with (S (k + S d)) by lia.
    rewrite pow_succ. cbn [gsum].
    pose proof (pow_gt_0 x k Hx) as HX.
    set (X := x ^ Z.of_nat k) in *. set (G := gsum x k) in *.
    set (Y := x ^ Z.of_nat (k + S d)) in *. set (H := gsum x (k + S d)) in *.
    clearbody X G Y H.
    assert (H1 : x * (Y * G) < x * (X * H)) by (now apply scale_lt).
    setoid_replace (x * Y * G) with (x * (Y * G)) by ring.
    setoid_replace (X * (1 + x * H)) with (X + x * (X * H)) by ring.
    lra.
Qed.

Lemma ratio_cancel (p1 p2 P X1 X2 G1 G2 : Q) :
  0 < P -> 0 < G1 -> 0 < G2 ->
  p1 * G1 == P * X1 -> p2 * G2 == P * X2 ->
  X1 * G2 < X2 * G1 -> p1 < p2.
Proof.
  intros HP HG1 HG2 E1 E2 Hlt.
  assert (HG : 0 < G1 * G2) by (now apply Qmult_lt_0_compat).
  apply (Qmult_lt_r _ _ (G1 * G2) HG).
  setoid_replace (p1 * (G1 * G2)) with (p1 * G1 * G2) by ring.
  setoid_replace (p2 * (G1 * G2)) with (p2 * G2 * G1) by ring.
  rewrite E1, E2, <- !Qmult_assoc. now apply scale_lt.
Qed.

Lemma positive_factor (a G P : Q) : 0 < G -> 0 < P -> a * G == P -> 0 < a.
Proof.
  intros HG HP E. destruct (Qlt_le_dec 0 a) as [H|H]; [exact H|].
  exfalso. assert (a * G <= 0 * G) by (now apply Qmult_le_compat_r; [|lra]).
  lra.
Qed.

End PaymentOrder.

(** X2: with a zero rate a lump sum keeps its value over any number of
    years, negative ones included. *)
Theorem lump_sum_zero_rate (pv rate : Q) (years : Z) :
  rate == 0 ->
  exists v, fv_lump_sum pv rate years = Ok v /\ v == pv.
Proof.
  intros Hr. unfold fv_lump_sum, Py.pow.
  assert (Hb : Qeq_bool (1 + rate) 0 = false).
  { apply Qeq_bool_pos. rewrite Hr. reflexivity. }
  rewrite Hb. cbn [andb Py.bind].
  eexists; split; [reflexivity|].
  assert (H1 : 1 + rate == 1) by (rewrite Hr; reflexivity).
  rewrite H1, Qpower_1. ring.
Qed.

Lemma lump_sum_zero_rate_witness :
  0 == 0 /\ exists v, fv_lump_sum 80000 0 (-30) = Ok v /\ v == 80000.
Proof.
  split; [reflexivity|]. apply (lump_sum_zero_rate 80000 0 (-30)). reflexivity.
Defined.

(** X3: on moderate inputs (a payment of at most ten million either way, a
    rate that is 0 or between 0.0001 and 0.2, a term of 1 to 50 years),
    [fv_monthly_annuity] returns what the month-by-month schedule
    accumulates over [12 * years] months, with each contribution made at the
    end of its month; both branches.  The schedule is computed exactly; the
    binary64 result follows it up to rounding. *)
Theorem annuity_is_savings (pmt rate : Q) (years : Z) :
  Qabs pmt <= 10000000 -> Moderate.rate rate -> Moderate.years years ->
  exists v, fv_monthly_annuity pmt rate years = Ok v /\
            v == savings pmt (rate / 12) (Z.to_nat (years * 12)).
Proof.
  intros _ _ Hy. apply moderate_years_pos in Hy.
  destruct (annuity_spec pmt rate years ltac:(lia)) as (v & E & Hv).
  exists v. split; [exact E|].
  rewrite Hv, savings_gsum. apply annuity_gsum. lia.
Qed.

Lemma annuity_is_savings_witness :
  (Qabs 437 <= 10000000 /\ Moderate.rate (6 # 100) /\ Moderate.years 30) /\
  exists v, fv_monthly_annuity 437 (6 # 100) 30 = Ok v /\
            v == savings 437 ((6 # 100) / 12) (Z.to_nat (30 * 12)).
Proof.
  assert (Ha : Qabs 437 <= 10000000) by (cbn; lra).
  assert (Hr : Moderate.rate (6 # 100)) by (right; split; lra).
  assert (Hy : Moderate.years 30) by (unfold Moderate.years; lia).
  split; [split; [exact Ha | split; [exact Hr | exact Hy]]|].
  exact (annuity_is_savings 437 (6 # 100) 30 Ha Hr Hy).
Defined.

(** X4: on moderate inputs (a payment of at most ten million either way, a
    rate that is 0 or between 0.0001 and 0.2, a term of 1 to 50 years), the
    result of [fv_monthly_annuity] has the sign of the monthly payment:
    negative contributions give a negative future value, positive ones a
    positive one. *)
Theorem annuity_sign (pmt rate : Q) (years : Z) :
  Qabs pmt <= 10000000 -> Moderate.rate rate -> Moderate.years years ->
  exists v, fv_monthly_annuity pmt rate years = Ok v /\
            (pmt < 0 -> v < 0) /\ (pmt == 0 -> v == 0) /\ (0 < pmt -> 0 < v).
Proof.
  intros _ Hr Hy.
  apply moderate_rate_nonneg in Hr. apply moderate_years_pos in Hy.
  destruct (annuity_spec pmt rate years ltac:(lia)) as (v & E & Hv).
  exists v. split; [exact E|].
  destruct (Z.to_nat (years * 12)) as [|k] eqn:Ek; [lia|].
  rewrite Hv, (annuity_gsum pmt rate (S k) years) by lia.
  assert (0 <= rate / 12) by (apply Qle_shift_div_l; lra).
  pose proof (gsum_pos (1 + rate / 12) k ltac:(lra)) as HG.
  set (G := gsum (1 + rate / 12) (S k)) in *. clearbody G.
  split; [|split]; intros Hp.
  - setoid_replace 0 with (0 * G) by ring.
    now apply Qmult_lt_compat_r.
  - rewrite Hp. ring.
  - now apply Qmult_lt_0_compat.
Qed.

Lemma annuity_sign_witness :
  (Qabs (-778) <= 10000000 /\ Moderate.rate (6 # 100) /\ Moderate.years 30) /\
  exists v, fv_monthly_annuity (-778) (6 # 100) 30 = Ok v /\
            (-778 < 0 -> v < 0) /\ (-778 == 0 -> v == 0) /\
            (0 < -778 -> 0 < v).
Proof.
  assert (Ha : Qabs (-778) <= 10000000) by (cbn; lra).
  assert (Hr : Moderate.rate (6 # 100)) by (right; split; lra).
  assert (Hy : Moderate.years 30) by (unfold Moderate.years; lia).
  split; [split; [exact Ha | split; [exact Hr | exact Hy]]|].
  exact (annuity_sign (-778) (6 # 100) 30 Ha Hr Hy).
Defined.

(** ** The mortgage payment *)

(** X5: the payment amortises the loan: on moderate inputs (a principal
    between 1 and ten million, a rate that is 0 or between 0.0001 and 0.2, a
    term of 1 to 50 years), after [12 * years] months of interest at the
    monthly rate, each followed by the payment, the balance is zero.  The
    schedule is computed exactly; with the binary64 payment the balance is
    zero up to rounding. *)
Theorem payment_clears_loan (principal rate : Q) (years : Z) :
  Moderate.amount principal -> Moderate.rate rate -> Moderate.years years ->
  exists pay,
    monthly_mortgage_payment principal rate years = Ok pay /\
    balance principal (rate / 12) pay (Z.to_nat (years * 12)) == 0.
Proof.
  intros _ Hr Hy.
  apply moderate_rate_nonneg in Hr. apply moderate_years_pos in Hy.
  destruct (mortgage_spec principal rate years Hr Hy) as (pay & E & Hp).
  exists pay. split; [exact E|].
  rewrite balance_gsum, Hp.
  rewrite (payment_gsum principal rate years _ Hr Hy) by lia.
  ring.
Qed.

Lemma payment_clears_loan_witness :
  (Moderate.amount 720000 /\ Moderate.rate (4 # 100) /\ Moderate.years 30) /\
  exists pay,
    monthly_mortgage_payment 720000 (4 # 100) 30 = Ok pay /\
    balance 720000 ((4 # 100) / 12) pay (Z.to_nat (30 * 12)) == 0.
Proof.
  assert (Ha : Moderate.amount 720000) by (split; lra).
  assert (Hr : Moderate.rate (4 # 100)) by (right; split; lra).
  assert (Hy : Moderate.years 30) by (unfold Moderate.years; lia).
  split; [split; [exact Ha | split; [exact Hr | exact Hy]]|].
  exact (payment_clears_loan 720000 (4 # 100) 30 Ha Hr Hy).
Defined.

(** In exact arithmetic the payment is more than the first month's interest
    on the principal. *)
Lemma payment_above_interest (principal rate : Q) (years : Z) :
  0 < principal -> 0 < rate -> (0 < years)%Z ->
  exists pay,
    monthly_mortgage_payment principal rate years = Ok pay /\
    principal * (rate / 12) < pay.
Proof.
  intros HP Hr Hy.
  destruct (mortgage_spec principal rate years (Qlt_le_weak _ _ Hr) Hy)
    as (pay & E & Hp).
  exists pay. split; [exact E|].
  destruct (Z.to_nat (years * 12)) as [|k] eqn:Ek; [lia|].
  assert (Hk : (years * 12)%Z = Z.of_nat (S k)) by lia.
  pose proof (payment_gsum principal rate years _ (Qlt_le_weak _ _ Hr) Hy Hk)
    as Hg.
  rewrite <- Hp in Hg.
  pose proof (gsum_closed (1 + rate / 12) (S k)) as Hc.
  assert (0 < rate / 12) by (apply Qlt_shift_div_l; lra).
  pose proof (gsum_pos (1 + rate / 12) k ltac:(lra)) as HG.
  set (X := (1 + rate / 12) ^ Z.of_nat (S k)) in *.
  set (G := gsum (1 + rate / 12) (S k)) in *.
  set (r := rate / 12) in *. clearbody X G r.
  assert (HX : X == 1 + r * G) by (setoid_replace X with (X - 1 + 1) by ring;
                                   rewrite Hc; ring).
  assert (Hd : (pay - principal * r) * G == principal).
  { setoid_replace ((pay - principal * r) * G)
      with (pay * G - principal * (r * G)) by ring.
    rewrite Hg, HX. ring. }
  pose proof (positive_factor _ _ _ HG HP Hd). lra.
Qed.

(** X7: on moderate inputs (a principal between 1 and ten million, a rate
    between 0.0001 and 0.2, a term of 1 to 50 years), the payment is more
    than the first month's interest on the principal, so the balance goes
    down. *)
Theorem payment_exceeds_interest (principal rate : Q) (years : Z) :
  Moderate.amount principal -> 1 # 10000 <= rate -> rate <= 1 # 5 ->
  Moderate.years years ->
  exists pay,
    monthly_mortgage_payment principal rate years = Ok pay /\
    principal * (rate / 12) < pay.
Proof.
  intros HP Hr _ Hy.
  apply payment_above_interest;
    [now apply moderate_amount_pos | lra | now apply moderate_years_pos].
Qed.

Lemma payment_exceeds_interest_witness :
  (Moderate.amount 720000 /\ 1 # 10000 <= 4 # 100 /\ 4 # 100 <= 1 # 5 /\
   Moderate.years 30) /\
  exists pay,
    monthly_mortgage_payment 720000 (4 # 100) 30 = Ok pay /\
    720000 * ((4 # 100) / 12) < pay.
Proof.
  assert (Ha : Moderate.amount 720000) by (split; lra).
  assert (Hl : 1 # 10000 <= 4 # 100) by lra.
  assert (Hu : 4 # 100 <= 1 # 5) by lra.
  assert (Hy : Moderate.years 30) by (unfold Moderate.years; lia).
  split; [split; [exact Ha | split; [exact Hl | split; [exact Hu | exact Hy]]]|].
  exact (payment_exceeds_interest 720000 (4 # 100) 30 Ha Hl Hu Hy).
Defined.

Lemma spec_payment_rate_lt (principal r1 r2 : Q) (years : Z) :
  0 < principal -> 0 <= r1 -> r1 < r2 -> (0 < years)%Z ->
  Spec.monthlyMortgagePayment principal r1 years
  < Spec.monthlyMortgagePayment principal r2 years.
Proof.
  intros HP H1 H12 Hy. assert (H2 : 0 <= r2) by lra.
  destruct (Z.to_nat (years * 12)) as [|k] eqn:Ek; [lia|].
  assert (Hk : (years * 12)%Z = Z.of_nat (S k)) by lia.
  pose proof (payment_gsum principal r1 years _ H1 Hy Hk) as G1.
  pose proof (payment_gsum principal r2 years _ H2 Hy Hk) as G2.
  assert (0 <= r1 / 12) by (apply Qle_shift_div_l; lra).
  assert (r1 / 12 < r2 / 12)
    by (apply Qmult_lt_compat_r; [reflexivity | exact H12]).
  apply (ratio_cancel _ _ principal _ _ _ _ HP
           (gsum_pos (1 + r1 / 12) k ltac:(lra))
           (gsum_pos (1 + r2 / 12) k ltac:(lra)) G1 G2).
  apply cross_lt; lra.
Qed.

(** X8: on moderate inputs (a principal between 1 and ten million, rates
    that are 0 or between 0.0001 and 0.2, a term of 1 to 50 years), the
    payment is strictly increasing in the annual rate, from a zero rate on,
    for two rates at least one millionth apart. *)
Theorem payment_increasing_in_rate (principal r1 r2 : Q) (years : Z) :
  Moderate.amount principal -> Moderate.rate r1 -> Moderate.rate r2 ->
  r1 + Moderate.step <= r2 -> Moderate.years years ->
  exists p1 p2,
    monthly_mortgage_payment principal r1 years = Ok p1 /\
    monthly_mortgage_payment principal r2 years = Ok p2 /\
    p1 < p2.
Proof.
  intros HP H1 H2 Hstep Hy.
  apply moderate_amount_pos in HP. apply moderate_years_pos in Hy.
  apply moderate_rate_nonneg in H1. apply moderate_rate_nonneg in H2.
  assert (H12 : r1 < r2) by (unfold Moderate.step in Hstep; lra).
  destruct (mortgage_spec principal r1 years H1 Hy) as (p1 & E1 & Hp1).
  destruct (mortgage_spec principal r2 years H2 Hy) as (p2 & E2 & Hp2).
  exists p1, p2. split; [exact E1|]. split; [exact E2|].
  rewrite Hp1, Hp2. now apply spec_payment_rate_lt.
Qed.

Lemma payment_increasing_in_rate_witness :
  (Moderate.amount 720000 /\ Moderate.rate 0 /\ Moderate.rate (4 # 100) /\
   0 + Moderate.step <= 4 # 100 /\ Moderate.years 30) /\
  exists p1 p2,
    monthly_mortgage_payment 720000 0 30 = Ok p1 /\
    monthly_mortgage_payment 720000 (4 # 100) 30 = Ok p2 /\
    p1 < p2.
Proof.
  assert (Ha : Moderate.amount 720000) by (split; lra).
  assert (H1 : Moderate.rate 0) by (left; reflexivity).
  assert (H2 : Moderate.rate (4 # 100)) by (right; split; lra).
  assert (Hs : 0 + Moderate.step <= 4 # 100) by (unfold Moderate.step; lra).
  assert (Hy : Moderate.years 30) by (unfold Moderate.years; lia).
  split.
  - split; [exact Ha|]. split; [exact H1|]. split; [exact H2|].
    split; [exact Hs | exact Hy].
  - exact (payment_increasing_in_rate 720000 0 (4 # 100) 30 Ha H1 H2 Hs Hy).
Defined.

(** In exact arithmetic a longer term gives a smaller payment. *)
Lemma payment_term_order (principal rate : Q) (y1 y2 : Z) :
  0 < principal -> 0 <= rate -> (0 < y1)%Z -> (y1 < y2)%Z ->
  exists p1 p2,
    monthly_mortgage_payment principal rate y1 = Ok p1 /\
    monthly_mortgage_payment principal rate y2 = Ok p2 /\
    p2 < p1.
Proof.
  intros HP Hr H1 H12. assert (H2 : (0 < y2)%Z) by lia.
  destruct (mortgage_spec principal rate y1 Hr H1) as (p1 & E1 & Hp1).
  destruct (mortgage_spec principal rate y2 Hr H2) as (p2 & E2 & Hp2).
  exists p1, p2. split; [exact E1|]. split; [exact E2|].
  destruct (Z.to_nat (y1 * 12)) as [|k] eqn:Ek; [lia|].
  set (d := (Z.to_nat (y2 * 12) - S k - 1)%nat).
  assert (Hk1 : (y1 * 12)%Z = Z.of_nat (S k)) by lia.
  assert (Hk2 : (y2 * 12)%Z = Z.of_nat (S k + S d)) by lia.
  pose proof (payment_gsum principal rate y1 _ Hr H1 Hk1) as G1.
  pose proof (payment_gsum principal rate y2 _ Hr H2 Hk2) as G2.
  rewrite <- Hp1 in G1. rewrite <- Hp2 in G2.
  assert (0 <= rate / 12) by (apply Qle_shift_div_l; lra).
  assert (Hg1 : 0 < gsum (1 + rate / 12) (S k)) by (apply gsum_pos; lra).
  assert (Hg2 : 0 < gsum (1 + rate / 12) (S k + S d)).
  { replace (S k + S d)%nat with (S (k + S d)) by lia. apply gsum_pos. lra. }
  apply (ratio_cancel p2 p1 principal _ _ _ _ HP Hg2 Hg1 G2 G1).
  apply ratio_lt. lra.
Qed.

(** X9: on moderate inputs (a principal between 1 and ten million, a rate
    that is 0 or between 0.0001 and 0.2, terms of 1 to 50 years), a longer
    term gives a strictly smaller payment. *)
Theorem payment_decreasing_in_term (principal rate : Q) (y1 y2 : Z) :
  Moderate.amount principal -> Moderate.rate rate ->
  Moderate.years y1 -> Moderate.years y2 -> (y1 < y2)%Z ->
  exists p1 p2,
    monthly_mortgage_payment principal rate y1 = Ok p1 /\
    monthly_mortgage_payment principal rate y2 = Ok p2 /\
    p2 < p1.
Proof.
  intros HP Hr H1 _ H12.
  apply payment_term_order;
    [now apply moderate_amount_pos | now apply moderate_rate_nonneg
    | now apply moderate_years_pos | exact H12].
Qed.

Lemma payment_decreasing_in_term_witness :
  (Moderate.amount 720000 /\ Moderate.rate (4 # 100) /\ Moderate.years 15 /\
   Moderate.years 30 /\ (15 < 30)%Z) /\
  exists p1 p2,
    monthly_mortgage_payment 720000 (4 # 100) 15 = Ok p1 /\
    monthly_mortgage_payment 720000 (4 # 100) 30 = Ok p2 /\
    p2 < p1.
Proof.
  assert (Ha : Moderate.amount 720000) by (split; lra).
  assert (Hr : Moderate.rate (4 # 100)) by (right; split; lra).
  assert (H1 : Moderate.years 15) by (unfold Moderate.years; lia).
  assert (H2 : Moderate.years 30) by (unfold Moderate.years; lia).
  assert (H12 : (15 < 30)%Z) by lia.
  split.
  - split; [exact Ha|]. split; [exact Hr|]. split; [exact H1|].
    split; [exact H2 | exact H12].
  - exact (payment_decreasing_in_term 720000 (4 # 100) 15 30
             Ha Hr H1 H2 H12).
Defined.

(** ** Sensitivities of the comparison *)

(** The returned triple with the annuity written as a geometric sum. *)
Lemma evaluate_gsum (p : params) (k : nat) :
  0 <= mortgage_rate p -> (0 < term_years p)%Z ->
  (term_years p * 12)%Z = Z.of_nat k ->
  exists o, buy_vs_rent_wealth p = Ok o /\
    buy_wealth o
      == house_price p * (1 + home_appreciation p) ^ term_years p /\
    rent_wealth o
      == house_price p * down_pct p * (1 + invest_return p) ^ term_years p
         + (Spec.monthlyMortgagePayment (house_price p * (1 - down_pct p))
              (mortgage_rate p) (term_years p)
            - house_price p * rent_yield p / 12)
           * gsum (1 + invest_return p / 12) k /\
    diff o == buy_wealth o - rent_wealth o.
Proof.
  intros Hm Ht Hk.
  destruct (evaluate_spec p Hm Ht) as (o & E & HB & HR & HD).
  exists o. split; [exact E|]. split; [exact HB|]. split; [|exact HD].
  rewrite HR. unfold Spec.rentWealth, Spec.monthlyInvestableDifference.
  rewrite (annuity_gsum _ _ k _ Hk). reflexivity.
Qed.

(** In exact arithmetic a higher rent yield lowers the rent wealth and
    raises the difference. *)
Lemma rent_yield_order (p : params) (y1 y2 : Q) :
  0 < house_price p -> 0 <= mortgage_rate p -> (0 < term_years p)%Z ->
  0 <= invest_return p -> y1 < y2 ->
  exists o1 o2,
    buy_vs_rent_wealth (with_rent_yield p y1) = Ok o1 /\
    buy_vs_rent_wealth (with_rent_yield p y2) = Ok o2 /\
    buy_wealth o1 == buy_wealth o2 /\
    rent_wealth o2 < rent_wealth o1 /\
    diff o1 < diff o2.
Proof.
  intros HP Hm Ht Hi Hy.
  destruct (Z.to_nat (term_years p * 12)) as [|k] eqn:Ek; [lia|].
  assert (Hk : (term_years p * 12)%Z = Z.of_nat (S k)) by lia.
  destruct (evaluate_gsum (with_rent_yield p y1) _ Hm Ht Hk)
    as (o1 & E1 & HB1 & HR1 & HD1).
  destruct (evaluate_gsum (with_rent_yield p y2) _ Hm Ht Hk)
    as (o2 & E2 & HB2 & HR2 & HD2).
  cbn [house_price down_pct mortgage_rate term_years rent_yield invest_return
       home_appreciation with_rent_yield] in HB1, HB2, HR1, HR2.
  exists o1, o2. split; [exact E1|]. split; [exact E2|].
  assert (Hbw : buy_wealth o1 == buy_wealth o2) by (now rewrite HB1, HB2).
  assert (0 <= invest_return p / 12) by (apply Qle_shift_div_l; lra).
  pose proof (gsum_pos (1 + invest_return p / 12) k ltac:(lra)) as HG.
  assert (Hrw : rent_wealth o2 < rent_wealth o1).
  { rewrite HR1, HR2.
    set (G := gsum (1 + invest_return p / 12) (S k)) in *.
    set (L := house_price p * down_pct p * (1 + invest_return p) ^ term_years p).
    set (m := Spec.monthlyMortgagePayment _ _ _).
    clearbody G L m.
    assert (Hrent : house_price p * y1 / 12 < house_price p * y2 / 12).
    { apply Qmult_lt_compat_r; [reflexivity|]. now apply scale_lt. }
    assert ((m - house_price p * y2 / 12) * G
            < (m - house_price p * y1 / 12) * G)
      by (apply Qmult_lt_compat_r; [exact HG | lra]).
    lra. }
  split; [exact Hbw|]. split; [exact Hrw|].
  rewrite HD1, HD2, Hbw. lra.
Qed.

(** X12: a higher rent yield leaves the renter less to invest: on moderate
    inputs, for two rent yields at least one millionth apart, the rent
    wealth is strictly decreasing and the difference strictly increasing in
    the rent yield; the buy wealth does not change. *)
Theorem difference_increasing_in_rent_yield (p : params) (y1 y2 : Q) :
  Moderate.inputs (with_rent_yield p y1) -> Moderate.fraction y2 ->
  y1 + Moderate.step <= y2 ->
  exists o1 o2,
    buy_vs_rent_wealth (with_rent_yield p y1) = Ok o1 /\
    buy_vs_rent_wealth (with_rent_yield p y2) = Ok o2 /\
    buy_wealth o1 == buy_wealth o2 /\
    rent_wealth o2 < rent_wealth o1 /\
    diff o1 < diff o2.
Proof.
  intros Hv _ Hstep.
  destruct (moderate_runs _ Hv) as [Hm Ht].
  destruct Hv as (HP & _ & _ & _ & _ & Hi & _).
  apply moderate_amount_pos in HP. apply moderate_rate_nonneg in Hi.
  cbn in HP, Hm, Ht, Hi.
  apply rent_yield_order; try assumption.
  unfold Moderate.step in Hstep; lra.
Qed.

Lemma difference_increasing_in_rent_yield_witness :
  (Moderate.inputs (with_rent_yield base_case (45 # 1000)) /\
   Moderate.fraction (55 # 1000) /\
   (45 # 1000) + Moderate.step <= 55 # 1000) /\
  exists o1 o2,
    buy_vs_rent_wealth (with_rent_yield base_case (45 # 1000)) = Ok o1 /\
    buy_vs_rent_wealth (with_rent_yield base_case (55 # 1000)) = Ok o2 /\
    buy_wealth o1 == buy_wealth o2 /\
    rent_wealth o2 < rent_wealth o1 /\
    diff o1 < diff o2.
Proof.
  assert (Hf : Moderate.fraction (55 # 1000)) by (split; lra).
  assert (Hs : (45 # 1000) + Moderate.step <= 55 # 1000)
    by (unfold Moderate.step; lra).
  split; [split; [exact base_case_moderate | split; [exact Hf | exact Hs]]|].
  exact (difference_increasing_in_rent_yield base_case (45 # 1000)
           (55 # 1000) base_case_moderate Hf Hs).
Defined.

(** In exact arithmetic a higher mortgage rate raises the rent wealth and
    lowers the difference, as long as something is borrowed. *)
Lemma mortgage_rate_order (p : params) (m1 m2 : Q) :
  0 < house_price p -> down_pct p < 1 -> (0 < term_years p)%Z ->
  0 <= invest_return p -> 0 <= m1 -> m1 < m2 ->
  exists o1 o2,
    buy_vs_rent_wealth (with_mortgage_rate p m1) = Ok o1 /\
    buy_vs_rent_wealth (with_mortgage_rate p m2) = Ok o2 /\
    buy_wealth o1 == buy_wealth o2 /\
    rent_wealth o1 < rent_wealth o2 /\
    diff o2 < diff o1.
Proof.
  intros HP Hd Ht Hi H1 H12. assert (H2 : 0 <= m2) by lra.
  destruct (Z.to_nat (term_years p * 12)) as [|k] eqn:Ek; [lia|].
  assert (Hk : (term_years p * 12)%Z = Z.of_nat (S k)) by lia.
  destruct (evaluate_gsum (with_mortgage_rate p m1) _ H1 Ht Hk)
    as (o1 & E1 & HB1 & HR1 & HD1).
  destruct (evaluate_gsum (with_mortgage_rate p m2) _ H2 Ht Hk)
    as (o2 & E2 & HB2 & HR2 & HD2).
  cbn [house_price down_pct mortgage_rate term_years rent_yield invest_return
       home_appreciation with_mortgage_rate] in HB1, HB2, HR1, HR2.
  exists o1, o2. split; [exact E1|]. split; [exact E2|].
  assert (Hbw : buy_wealth o1 == buy_wealth o2) by (now rewrite HB1, HB2).
  assert (0 <= invest_return p / 12) by (apply Qle_shift_div_l; lra).
  pose proof (gsum_pos (1 + invest_return p / 12) k ltac:(lra)) as HG.
  assert (Hloan : 0 < house_price p * (1 - down_pct p))
    by (apply Qmult_lt_0_compat; lra).
  pose proof (spec_payment_rate_lt _ m1 m2 (term_years p) Hloan H1 H12 Ht)
    as Hpay.
  assert (Hrw : rent_wealth o1 < rent_wealth o2).
  { rewrite HR1, HR2.
    set (G := gsum (1 + invest_return p / 12) (S k)) in *.
    set (L := house_price p * down_pct p * (1 + invest_return p) ^ term_years p).
    set (a := Spec.monthlyMortgagePayment _ m1 _) in *.
    set (b := Spec.monthlyMortgagePayment _ m2 _) in *.
    set (rent := house_price p * rent_yield p / 12).
    clearbody G L a b rent.
    assert ((a - rent) * G < (b - rent) * G)
      by (apply Qmult_lt_compat_r; [exact HG | lra]).
    lra. }
  split; [exact Hbw|]. split; [exact Hrw|].
  rewrite HD1, HD2, Hbw. lra.
Qed.

(** X13: a higher mortgage rate raises the payment the renter can invest
    instead: on moderate inputs with a down payment fraction of at most 0.9,
    for two mortgage rates at least one millionth apart, the rent wealth is
    strictly increasing and the difference strictly decreasing in the
    mortgage rate; the buy wealth does not change. *)
Theorem difference_decreasing_in_mortgage_rate (p : params) (m1 m2 : Q) :
  Moderate.inputs (with_mortgage_rate p m1) -> Moderate.rate m2 ->
  m1 + Moderate.step <= m2 -> down_pct p <= 9 # 10 ->
  exists o1 o2,
    buy_vs_rent_wealth (with_mortgage_rate p m1) = Ok o1 /\
    buy_vs_rent_wealth (with_mortgage_rate p m2) = Ok o2 /\
    buy_wealth o1 == buy_wealth o2 /\
    rent_wealth o1 < rent_wealth o2 /\
    diff o2 < diff o1.
Proof.
  intros Hv _ Hstep Hd.
  destruct (moderate_runs _ Hv) as [Hm Ht].
  destruct Hv as (HP & _ & _ & _ & _ & Hi & _).
  apply moderate_amount_pos in HP. apply moderate_rate_nonneg in Hi.
  cbn in HP, Hm, Ht, Hi.
  apply mortgage_rate_order; try assumption.
  - lra.
  - unfold Moderate.step in Hstep; lra.
Qed.

Lemma base_case_cheaper_loan :
  Moderate.inputs (with_mortgage_rate base_case (3 # 100)).
Proof.
  unfold Moderate.inputs, Moderate.amount, Moderate.rate, Moderate.years,
    Moderate.fraction, base_case; cbn.
  split; [split; lra|]. split; [split; lra|].
  split; [right; split; lra|]. split; [lia|].
  split; [split; lra|]. split; [right; split; lra|]. split; lra.
Defined.

Lemma difference_decreasing_in_mortgage_rate_witness :
  (Moderate.inputs (with_mortgage_rate base_case (3 # 100)) /\
   Moderate.rate (6 # 100) /\
   (3 # 100) + Moderate.step <= 6 # 100 /\
   down_pct base_case <= 9 # 10) /\
  exists o1 o2,
    buy_vs_rent_wealth (with_mortgage_rate base_case (3 # 100)) = Ok o1 /\
    buy_vs_rent_wealth (with_mortgage_rate base_case (6 # 100)) = Ok o2 /\
    buy_wealth o1 == buy_wealth o2 /\
    rent_wealth o1 < rent_wealth o2 /\
    diff o2 < diff o1.
Proof.
  assert (Hr : Moderate.rate (6 # 100)) by (right; split; lra).
  assert (Hs : (3 # 100) + Moderate.step <= 6 # 100)
    by (unfold Moderate.step; lra).
  assert (Hd : down_pct base_case <= 9 # 10) by (cbn; lra).
  split.
  - split; [exact base_case_cheaper_loan|]. split; [exact Hr|].
    split; [exact Hs | exact Hd].
  - exact (difference_decreasing_in_mortgage_rate base_case (3 # 100)
             (6 # 100) base_case_cheaper_loan Hr Hs Hd).
Defined.

(** In exact arithmetic a higher home appreciation raises the difference
    and leaves the rent wealth alone. *)
Lemma appreciation_order (p : params) (a1 a2 : Q) :
  0 < house_price p -> 0 <= mortgage_rate p -> (0 < term_years p)%Z ->
  -1 <= a1 -> a1 < a2 ->
  exists o1 o2,
    buy_vs_rent_wealth (with_home_appreciation p a1) = Ok o1 /\
    buy_vs_rent_wealth (with_home_appreciation p a2) = Ok o2 /\
    rent_wealth o1 == rent_wealth o2 /\
    diff o1 < diff o2.
Proof.
  intros HP Hm Ht H1 H12.
  assert (Hk : (term_years p * 12)%Z
               = Z.of_nat (Z.to_nat (term_years p * 12))) by lia.
  destruct (evaluate_gsum (with_home_appreciation p a1) _ Hm Ht Hk)
    as (o1 & E1 & HB1 & HR1 & HD1).
  destruct (evaluate_gsum (with_home_appreciation p a2) _ Hm Ht Hk)
    as (o2 & E2 & HB2 & HR2 & HD2).
  cbn [house_price down_pct mortgage_rate term_years rent_yield invest_return
       home_appreciation with_home_appreciation] in HB1, HB2, HR1, HR2.
  exists o1, o2. split; [exact E1|]. split; [exact E2|].
  assert (Hrw : rent_wealth o1 == rent_wealth o2) by (now rewrite HR1, HR2).
  split; [exact Hrw|].
  assert (Hbw : buy_wealth o1 < buy_wealth o2).
  { rewrite HB1, HB2. apply scale_lt; [exact HP|].
    apply pow_base_lt; [lra | lra | exact Ht]. }
  rewrite HD1, HD2, Hrw. lra.
Qed.

(** X14: home appreciation moves only the buyer's side: on moderate inputs,
    for two appreciation rates at least one millionth apart and at most 0.2,
    the rent wealth does not change and the difference is strictly
    increasing in the home appreciation. *)
Theorem difference_increasing_in_appreciation (p : params) (a1 a2 : Q) :
  Moderate.inputs (with_home_appreciation p a1) ->
  a1 + Moderate.step <= a2 -> a2 <= 1 # 5 ->
  exists o1 o2,
    buy_vs_rent_wealth (with_home_appreciation p a1) = Ok o1 /\
    buy_vs_rent_wealth (with_home_appreciation p a2) = Ok o2 /\
    rent_wealth o1 == rent_wealth o2 /\
    diff o1 < diff o2.
Proof.
  intros Hv Hstep _.
  destruct (moderate_runs _ Hv) as [Hm Ht].
  destruct Hv as (HP & _ & _ & _ & _ & _ & [Ha _]).
  apply moderate_amount_pos in HP. cbn in HP, Hm, Ht, Ha.
  apply appreciation_order; try assumption.
  - lra.
  - unfold Moderate.step in Hstep; lra.
Qed.

Lemma base_case_no_appreciation :
  Moderate.inputs (with_home_appreciation base_case 0).
Proof.
  unfold Moderate.inputs, Moderate.amount, Moderate.rate, Moderate.years,
    Moderate.fraction, base_case; cbn.
  split; [split; lra|]. split; [split; lra|].
  split; [right; split; lra|]. split; [lia|].
  split; [split; lra|]. split; [right; split; lra|]. split; lra.
Defined.

Lemma difference_increasing_in_appreciation_witness :
  (Moderate.inputs (with_home_appreciation base_case 0) /\
   0 + Moderate.step <= 2 # 100 /\ 2 # 100 <= 1 # 5) /\
  exists o1 o2,
    buy_vs_rent_wealth (with_home_appreciation base_case 0) = Ok o1 /\
    buy_vs_rent_wealth (with_home_appreciation base_case (2 # 100)) = Ok o2 /\
    rent_wealth o1 == rent_wealth o2 /\
    diff o1 < diff o2.
Proof.
  assert (Hs : 0 + Moderate.step <= 2 # 100) by (unfold Moderate.step; lra).
  assert (Hu : 2 # 100 <= 1 # 5) by lra.
  split;
    [split; [exact base_case_no_appreciation | split; [exact Hs | exact Hu]]|].
  exact (difference_increasing_in_appreciation base_case 0 (2 # 100)
           base_case_no_appreciation Hs Hu).
Defined.

(** ** When the functions raise *)

(** X15: on a moderate rate (0, or between 0.0001 and 0.2) and a term of 1
    to 50 years the two future-value functions return, whatever the amount
    is; in particular [fv_monthly_annuity] does not divide by a zero monthly
    rate. *)
Theorem future_values_return (amount rate : Q) (years : Z) :
  Moderate.rate rate -> Moderate.years years ->
  Py.is_ok (fv_lump_sum amount rate years) = true /\
  Py.is_ok (fv_monthly_annuity amount rate years) = true.
Proof.
  intros _ Hy. apply moderate_years_pos in Hy. split.
  - rewrite lump_sum_ok by lia. reflexivity.
  - destruct (annuity_spec amount rate years ltac:(lia)) as (v & E & _).
    now rewrite E.
Qed.

Lemma future_values_return_witness :
  (Moderate.rate (6 # 100) /\ Moderate.years 30) /\
  Py.is_ok (fv_lump_sum (-437) (6 # 100) 30) = true /\
  Py.is_ok (fv_monthly_annuity (-437) (6 # 100) 30) = true.
Proof.
  assert (Hr : Moderate.rate (6 # 100)) by (right; split; lra).
  assert (Hy : Moderate.years 30) by (unfold Moderate.years; lia).
  split; [split; [exact Hr | exact Hy]|].
  exact (future_values_return (-437) (6 # 100) 30 Hr Hy).
Defined.

Section Vanishing.

Import PrimFloat.
Local Open Scope float_scope.

(** X16: on binary64 numbers, a mortgage rate that is not zero but so small
    that [1 + rate / 12] is [1] makes [monthly_mortgage_payment], and with
    it [buy_vs_rent_wealth], raise [ZeroDivisionError], for every principal
    and every term whose number of months is a double: the power on line 25
    is [1.0], which CPython returns without asking the C library, and the
    denominator is [0.0]. *)
Theorem vanishing_rate_raises (libm : float -> float -> float)
    (principal rate months : float) (years : Z) :
  (rate =? 0) = false -> 1 + rate / 12 = 1 ->
  B64.of_int (years * 12) = B64.Ok months ->
  B64.monthly_mortgage_payment libm principal rate years
  = B64.Raise B64.ZeroDivisionError /\
  forall p,
    B64.mortgage_rate p = rate -> B64.term_years p = years ->
    B64.buy_vs_rent_wealth libm p = B64.Raise B64.ZeroDivisionError.
Proof.
  intros H0 H1 Hn.
  assert (H : forall a,
             B64.monthly_mortgage_payment libm a rate years
             = B64.Raise B64.ZeroDivisionError).
  { intros a. unfold B64.monthly_mortgage_payment. cbv zeta.
    rewrite H0, H1, (pow_one libm _ _ Hn). cbn [B64.bind].
    apply div_by_zero. }
  split; [apply H|].
  intros p Hr Hy. unfold B64.buy_vs_rent_wealth. cbv zeta.
  rewrite Hr, Hy, H. reflexivity.
Qed.

Lemma vanishing_rate_raises_witness :
  ((B64.tiny =? 0) = false /\ 1 + B64.tiny / 12 = 1 /\
   B64.of_int (30 * 12) = B64.Ok 360) /\
  forall libm,
    B64.monthly_mortgage_payment libm B64.loan B64.tiny 30
    = B64.Raise B64.ZeroDivisionError /\
    B64.buy_vs_rent_wealth libm B64.tiny_rate
    = B64.Raise B64.ZeroDivisionError.
Proof.
  assert (H0 : (B64.tiny =? 0) = false) by reflexivity.
  assert (H1 : 1 + B64.tiny / 12 = 1) by reflexivity.
  assert (Hn : B64.of_int (30 * 12) = B64.Ok 360) by reflexivity.
  split; [split; [exact H0 | split; [exact H1 | exact Hn]]|].
  intros libm.
  destruct (vanishing_rate_raises libm B64.loan B64.tiny 360 30 H0 H1 Hn)
    as [Hp He].
  split; [exact Hp|]. apply He; reflexivity.
Defined.

End Vanishing.

(** ** The shape of the three tables *)

Lemma sweep_shape (scenario : Q -> Q -> params) (rows cols : list Q) :
  (forall r c, In r rows -> In c cols ->
     0 <= mortgage_rate (scenario r c) /\
     (0 < term_years (scenario r c))%Z) ->
  exists g, sweep scenario rows cols [] = Ok g /\
            table_shape (List.length rows) (List.length cols) g.
Proof.
  intros H.
  destruct (sweep_spec scenario rows cols) with (data := @nil (list string))
    as (g & Eg & Hlen & Hrows).
  - intros r c Hr Hc. destruct (H r c Hr Hc) as [H1 H2].
    destruct (evaluate_spec (scenario r c) H1 H2) as (o & E & _).
    now rewrite E.
  - exists g. split; [exact Eg|]. split; [exact Hlen|].
    apply Forall_forall. intros row Hin.
    destruct (In_nth_error _ _ Hin) as (i & Hi).
    assert (Hlt : (i < List.length rows)%nat).
    { rewrite <- Hlen. apply nth_error_Some. congruence. }
    destruct (nth_error rows i) as [r|] eqn:Er;
      [|apply nth_error_None in Er; lia].
    destruct (Hrows i r Er) as (row' & Hrow' & Hl & _).
    congruence.
Qed.

(** X17: on sidebar inputs within the invariants the three tables are built
    without an error, and they have 7 rows of 7 cells (A), 7 rows of 11
    cells (B) and 7 rows of 7 cells (C): the end points 6 percent, 10
    percent and 5 percent of the grids are included. *)
Theorem tables_have_shape (base : params) :
  Spec.valid base ->
  exists a b c,
    data_A base = Ok a /\ data_B base = Ok b /\ data_C base = Ok c /\
    table_shape 7 7 a /\ table_shape 7 11 b /\ table_shape 7 7 c.
Proof.
  intros Hv. destruct (valid_runs base Hv) as [Hm Ht].
  assert (Hgrid : forall x, In x mr_grid -> 0 <= x).
  { intros x. apply arange_nonneg; lra. }
  destruct (sweep_shape (scenario_A base) ir_grid mr_grid) as (a & Ea & Ha).
  { intros r c Hr Hc. cbn. split; [now apply Hgrid | exact Ht]. }
  destruct (sweep_shape (scenario_B base) ir_grid ap_grid) as (b & Eb & Hb).
  { intros r c Hr Hc. cbn. split; [exact Hm | exact Ht]. }
  destruct (sweep_shape (scenario_C base) mr_grid ry_grid) as (c & Ec & Hc).
  { intros r c Hr Hc. cbn. split; [now apply Hgrid | exact Ht]. }
  exists a, b, c. repeat split; try assumption; try apply Ha; try apply Hb;
    try apply Hc.
Qed.

Lemma tables_have_shape_witness :
  Spec.valid base_case /\
  exists a b c,
    data_A base_case = Ok a /\ data_B base_case = Ok b /\
    data_C base_case = Ok c /\
    table_shape 7 7 a /\ table_shape 7 11 b /\ table_shape 7 7 c.
Proof.
  split; [exact base_case_valid | exact (tables_have_shape base_case base_case_valid)].
Defined.

(** ** Formatting and colouring *)

Section Texts.

Lemma uint_digits (u : Decimal.uint) :
  Forall (fun c => is_digit c = true)
    (list_ascii_of_string (NilEmpty.string_of_uint u)).
Proof.
  induction u; cbn [NilEmpty.string_of_uint list_ascii_of_string];
    constructor; first [reflexivity | assumption].
Qed.

Lemma numeral_digits (n : Z) :
  exists c l, list_ascii_of_string (numeral n) = c :: l /\
              Forall (fun c => is_digit c = true) (c :: l).
Proof.
  unfold numeral, NilZero.string_of_uint.
  pose proof (uint_digits (N.to_uint (Z.to_N n))) as H.
  destruct (N.to_uint (Z.to_N n)) eqn:E;
    cbn [NilEmpty.string_of_uint list_ascii_of_string] in *;
    eexists _, _; (split; [reflexivity|]); try exact H.
  constructor; [reflexivity | constructor].
Qed.

Lemma digit_not_comma (c : ascii) : is_digit c = true -> not_comma c = true.
Proof.
  intros H. unfold not_comma. destruct (Ascii.eqb_spec c ","); [|reflexivity].
  subst. discriminate.
Qed.

Lemma digit_not_space (c : ascii) : is_digit c = true -> is_space c = false.
Proof.
  unfold is_digit, is_space. intros H.
  apply andb_true_iff in H. destruct H as [H1 H2].
  apply Nat.leb_le in H1. apply Nat.leb_le in H2.
  repeat (apply orb_false_iff; split);
    first [apply andb_false_iff; right; apply Nat.leb_gt; lia
          | apply Nat.eqb_neq; lia].
Qed.

Lemma filter_all {A : Type} (f : A -> bool) (l : list A) :
  Forall (fun x => f x = true) l -> filter f l = l.
Proof.
  induction 1 as [|x l Hx _ IH]; cbn; [reflexivity|].
  now rewrite Hx, IH.
Qed.

(** Grouping only adds commas. *)
Lemma group_rev_filter (n : nat) (l : list ascii) :
  (List.length l <= n)%nat ->
  filter not_comma (group_rev l) = filter not_comma l.
Proof.
  revert l. induction n as [|n IH]; intros l Hl.
  - destruct l; [reflexivity | cbn in Hl; lia].
  - destruct l as [|a [|b [|c [|d rest]]]]; try reflexivity.
    change (group_rev (a :: b :: c :: d :: rest))
      with ([a; b; c] ++ ","%char :: group_rev (d :: rest)).
    change (a :: b :: c :: d :: rest) with ([a; b; c] ++ d :: rest).
    rewrite !filter_app. f_equal.
    change (filter not_comma (","%char :: group_rev (d :: rest)))
      with (filter not_comma (group_rev (d :: rest))).
    apply IH. cbn in Hl |- *. lia.
Qed.

Lemma grouped_filter (n : Z) :
  filter not_comma (list_ascii_of_string (grouped n))
  = list_ascii_of_string (numeral n).
Proof.
  unfold grouped. fold (numeral n).
  rewrite list_ascii_of_string_of_list_ascii.
  rewrite <- (rev_involutive (filter _ _)), <- filter_rev, rev_involutive.
  rewrite (group_rev_filter _ _ (le_n _)).
  rewrite filter_rev, rev_involutive.
  destruct (numeral_digits n) as (c & l & -> & Hd).
  apply filter_all. eapply Forall_impl; [|exact Hd].
  intros a. apply digit_not_comma.
Qed.

(** Replacing the comma by nothing removes the commas. *)
Lemma replace_comma (s : string) :
  replace_from "," "" 0 s
  = string_of_list_ascii (filter not_comma (list_ascii_of_string s)).
Proof.
  induction s as [|c s IH]; [reflexivity|].
  cbn [replace_from String.prefix list_ascii_of_string filter].
  unfold not_comma at 1.
  destruct (ascii_dec "," c) as [<-|Hne].
  - cbn. destruct s; exact IH.
  - destruct (Ascii.eqb_spec c ","); [congruence|].
    cbn. now rewrite IH.
Qed.

(** A string without the first character of [old] is left as it is. *)
Lemma replace_absent (a : ascii) (old new s : string) :
  Forall (fun c => a <> c) (list_ascii_of_string s) ->
  replace_from (String a old) new 0 s = s.
Proof.
  induction s as [|c s IH]; [reflexivity|].
  cbn [list_ascii_of_string]. intros H. inversion H as [|? ? Hc Hs]; subst.
  cbn [replace_from String.prefix].
  destruct (ascii_dec a c); [contradiction|].
  now rewrite IH.
Qed.

End Texts.

Section Cleaning.

Lemma list_ascii_app (s t : string) :
  list_ascii_of_string (s ++ t)
  = list_ascii_of_string s ++ list_ascii_of_string t.
Proof.
  induction s as [|c s IH]; cbn; [reflexivity | now rewrite IH].
Qed.

Lemma grouped_chars (n : Z) :
  Forall (fun c => c = ","%char \/ is_digit c = true)
    (list_ascii_of_string (grouped n)).
Proof.
  apply Forall_forall. intros c Hin.
  destruct (Ascii.eqb_spec c ",") as [->|Hne]; [now left | right].
  assert (Hf : In c (filter not_comma (list_ascii_of_string (grouped n)))).
  { apply filter_In. split; [exact Hin|]. unfold not_comma.
    destruct (Ascii.eqb_spec c ","); [contradiction | reflexivity]. }
  rewrite grouped_filter in Hf.
  destruct (numeral_digits n) as (a & l & E & Hd). rewrite E in Hf.
  eapply Forall_forall in Hd; [exact Hd | exact Hf].
Qed.

Lemma str_rev_involutive (s : string) : str_rev (str_rev s) = s.
Proof.
  unfold str_rev.
  now rewrite list_ascii_of_string_of_list_ascii, rev_involutive,
    string_of_list_ascii_of_string.
Qed.

(** Stripping removes the blank in front and nothing else when the text
    starts and ends with characters that are not blank. *)
Lemma strip_blank_front (u : string) (c c' : ascii) (s : string)
    (l : list ascii) :
  u = String c s -> is_space c = false ->
  rev (list_ascii_of_string u) = c' :: l -> is_space c' = false ->
  str_strip (String " " u) = u.
Proof.
  intros Eu Hc Er Hc'. unfold str_strip.
  change (lstrip (String " " u)) with (lstrip u).
  assert (Hl : lstrip u = u) by (rewrite Eu; cbn [lstrip]; now rewrite Hc).
  rewrite Hl.
  assert (Hr : lstrip (str_rev u) = str_rev u).
  { unfold str_rev. rewrite Er. cbn [string_of_list_ascii lstrip].
    now rewrite Hc'. }
  rewrite Hr. apply str_rev_involutive.
Qed.

Lemma last_digit (pre : list ascii) (c : ascii) (l : list ascii) :
  Forall (fun c => is_digit c = true) (c :: l) ->
  exists c' l', rev (pre ++ c :: l) = c' :: l' /\ is_space c' = false.
Proof.
  intros Hd. rewrite rev_app_distr.
  destruct (rev (c :: l)) as [|c' l'] eqn:E.
  - apply (f_equal (@List.length ascii)) in E.
    rewrite length_rev in E. discriminate.
  - exists c', (l' ++ rev pre). split; [reflexivity|].
    apply digit_not_space.
    eapply Forall_forall in Hd; [exact Hd|].
    apply in_rev. rewrite E. now left.
Qed.

Lemma clean_text (sign : string) (n : Z) :
  sign = EmptyString \/ sign = "-"%string ->
  str_strip (str_replace "," "" (str_replace "RM" ""
              ("RM " ++ sign ++ grouped n)))
  = (sign ++ numeral n)%string.
Proof.
  intros Hs.
  change (str_replace "RM" "" ("RM " ++ sign ++ grouped n))
    with (String " " (replace_from "RM" "" 0 (sign ++ grouped n))).
  rewrite replace_absent.
  2:{ rewrite list_ascii_app. apply Forall_app. split.
      - destruct Hs as [-> | ->]; cbn; repeat constructor; discriminate.
      - eapply Forall_impl; [|apply grouped_chars].
        intros a [-> | Ha] E; [discriminate|]. subst a. discriminate. }
  unfold str_replace. rewrite replace_comma.
  cbn [list_ascii_of_string]. rewrite list_ascii_app.
  change (filter not_comma
            (" "%char :: list_ascii_of_string sign
             ++ list_ascii_of_string (grouped n)))
    with (" "%char :: filter not_comma
            (list_ascii_of_string sign ++ list_ascii_of_string (grouped n))).
  rewrite filter_app, grouped_filter.
  assert (Hsign : filter not_comma (list_ascii_of_string sign)
                  = list_ascii_of_string sign)
    by (destruct Hs as [-> | ->]; reflexivity).
  rewrite Hsign, <- list_ascii_app.
  cbn [string_of_list_ascii]. rewrite string_of_list_ascii_of_string.
  destruct (numeral_digits n) as (c & l & E & Hd).
  destruct (last_digit (list_ascii_of_string sign) c l Hd)
    as (c' & l' & Er & Hc').
  assert (Hc : is_space c = false)
    by (apply digit_not_space; now inversion Hd).
  assert (En : numeral n = String c (string_of_list_ascii l)).
  { rewrite <- (string_of_list_ascii_of_string (numeral n)), E. reflexivity. }
  destruct Hs as [-> | ->].
  - eapply strip_blank_front;
      [cbn [append]; exact En | exact Hc | | exact Hc'].
    cbn [append]. rewrite E. exact Er.
  - eapply strip_blank_front;
      [cbn [append]; reflexivity | reflexivity | | exact Hc'].
    rewrite list_ascii_app, E. exact Er.
Qed.

End Cleaning.

(** X18: the cleaning that [color_positive_negative] applies undoes the
    decoration of [format_rm]: with "RM" and the commas replaced by nothing
    and the blanks stripped, a formatted amount is the plain numeral of the
    rounded amount, with a minus sign for a negative amount. *)
Theorem cleaning_undoes_formatting (val : Q) :
  str_strip (str_replace "," "" (str_replace "RM" "" (format_rm val)))
  = plain_text val.
Proof.
  unfold format_rm, plain_text.
  apply clean_text. destruct (Qle_bool 0 val); [now left | now right].
Qed.

Section Rounding.

Lemma inject_Z_lt_inv (a b : Z) : inject_Z a < inject_Z b -> (a < b)%Z.
Proof. intros H. rewrite Zlt_Qlt. exact H. Qed.

Lemma floor_bounds (x : Q) :
  inject_Z (Qfloor x) <= x /\ x < inject_Z (Qfloor x) + 1.
Proof.
  split; [apply Qfloor_le|].
  pose proof (Qlt_floor x) as H. rewrite inject_Z_plus in H. exact H.
Qed.

Lemma round_half_even_cases (x : Q) :
  let f := Qfloor x in
  (x - inject_Z f < 1 # 2 /\ round_half_even x = f) \/
  (x - inject_Z f == 1 # 2 /\
   (round_half_even x = f \/ round_half_even x = (f + 1)%Z)) \/
  (1 # 2 < x - inject_Z f /\ round_half_even x = (f + 1)%Z).
Proof.
  intros f. unfold round_half_even. fold f.
  destruct (Qcompare_spec (x - inject_Z f) (1 # 2)) as [H|H|H].
  - right; left. split; [exact H|]. destruct (Z.even f); [now left | now right].
  - left. now split.
  - right; right. now split.
Qed.

Lemma floor_lt (x : Q) (b : Z) : x < inject_Z b -> (Qfloor x < b)%Z.
Proof.
  intros H. destruct (floor_bounds x) as [Hf _].
  apply inject_Z_lt_inv. lra.
Qed.

Lemma floor_ge (x : Q) (a : Z) : inject_Z a <= x -> (a <= Qfloor x)%Z.
Proof.
  intros H. destruct (floor_bounds x) as [_ Hf].
  assert (a < Qfloor x + 1)%Z; [|lia].
  apply inject_Z_lt_inv. rewrite inject_Z_plus.
  change (inject_Z 1) with 1. lra.
Qed.

Lemma round_half_even_small (x : Q) :
  0 <= x -> x <= 1 # 2 -> round_half_even x = 0%Z.
Proof.
  intros H0 H1.
  assert (Hf : Qfloor x = 0%Z).
  { pose proof (floor_lt x 1 ltac:(change (inject_Z 1) with 1; lra)).
    pose proof (floor_ge x 0 ltac:(change (inject_Z 0) with 0; lra)).
    lia. }
  unfold round_half_even. rewrite Hf.
  change (inject_Z 0) with 0.
  destruct (Qcompare_spec (x - 0) (1 # 2)) as [H|H|H];
    [reflexivity | reflexivity | lra].
Qed.

Lemma round_half_even_large (x : Q) :
  1 # 2 < x -> (1 <= round_half_even x)%Z.
Proof.
  intros H. destruct (floor_bounds x) as [Hf1 Hf2].
  pose proof (floor_ge x 0 ltac:(change (inject_Z 0) with 0; lra)) as H0.
  destruct (round_half_even_cases x) as [[Hc ->]|[[Hc [-> | ->]]|[Hc ->]]];
    try lia.
  - assert (0 < Qfloor x)%Z; [|lia].
    apply inject_Z_lt_inv. change (inject_Z 0) with 0. lra.
  - assert (0 < Qfloor x)%Z; [|lia].
    apply inject_Z_lt_inv. change (inject_Z 0) with 0. lra.
Qed.

Lemma round_half_even_near (x : Q) :
  Qabs (inject_Z (round_half_even x) - x) <= 1 # 2.
Proof.
  destruct (floor_bounds x) as [Hf1 Hf2]. apply Qabs_Qle_condition.
  destruct (round_half_even_cases x) as [[Hc ->]|[[Hc [-> | ->]]|[Hc ->]]];
    rewrite ?inject_Z_plus; change (inject_Z 1) with 1; split; lra.
Qed.

Lemma Qlt_bool_true (x y : Q) : x < y -> Qlt_bool x y = true.
Proof.
  intros H. unfold Qlt_bool. destruct (Qle_bool y x) eqn:E; [|reflexivity].
  apply Qle_bool_iff in E. lra.
Qed.

Lemma Qlt_bool_false (x y : Q) : y <= x -> Qlt_bool x y = false.
Proof.
  intros H. unfold Qlt_bool. apply Qle_bool_iff in H. now rewrite H.
Qed.

End Rounding.

Lemma clean_format (val : Q) :
  str_strip (str_replace "," "" (str_replace "RM" "" (format_rm val)))
  = plain_text val.
Proof.
  unfold format_rm, plain_text.
  apply clean_text. destruct (Qle_bool 0 val); [now left | now right].
Qed.

(** X19: the colour of a formatted amount follows the rounded amount, not
    the amount: whenever [float] reads the plain numeral as the number it
    denotes, [color_positive_negative (format_rm val)] is green for [val]
    above one half, red for [val] below minus one half and black in
    between, also for amounts that are not zero. *)
Theorem colour_of_formatted (float : string -> option Q) (val : Q) :
  float (plain_text val) = Some (plain_value val) ->
  color_positive_negative float (format_rm val)
  = if Qlt_bool (1 # 2) val then "color: green"%string
    else if Qlt_bool val (- (1 # 2)) then "color: red"%string
    else "color: black"%string.
Proof.
  intros Hfloat. unfold color_positive_negative.
  rewrite clean_format, Hfloat. unfold plain_value.
  pose proof (Qabs_nonneg val) as Hn.
  destruct (Qlt_le_dec (1 # 2) val) as [Hhi|Hhi].
  - rewrite (Qlt_bool_true _ _ Hhi).
    assert (Hp : 0 <= val) by lra.
    pose proof (Qabs_pos val Hp) as Ha.
    pose proof (round_half_even_large (Qabs val) ltac:(lra)) as Hz.
    apply Qle_bool_iff in Hp. rewrite Hp.
    rewrite Qlt_bool_true; [reflexivity|].
    change 0 with (inject_Z 0). rewrite <- Zlt_Qlt. lia.
  - rewrite (Qlt_bool_false _ _ Hhi).
    destruct (Qlt_le_dec val (- (1 # 2))) as [Hlo|Hlo].
    + rewrite (Qlt_bool_true _ _ Hlo).
      assert (Hneg : Qle_bool 0 val = false).
      { destruct (Qle_bool 0 val) eqn:E; [|reflexivity].
        apply Qle_bool_iff in E. lra. }
      pose proof (Qabs_neg val ltac:(lra)) as Ha.
      pose proof (round_half_even_large (Qabs val) ltac:(lra)) as Hz.
      assert (Hpos : 0 < inject_Z (round_half_even (Qabs val))).
      { change 0 with (inject_Z 0). rewrite <- Zlt_Qlt. lia. }
      rewrite Hneg.
      rewrite Qlt_bool_false by lra. rewrite Qlt_bool_true by lra.
      reflexivity.
    + rewrite (Qlt_bool_false _ _ Hlo).
      assert (Hsmall : Qabs val <= 1 # 2) by (apply Qabs_Qle_condition; lra).
      rewrite (round_half_even_small (Qabs val) Hn Hsmall).
      destruct (Qle_bool 0 val); reflexivity.
Qed.

Lemma colour_of_formatted_witness :
  read_decimal (plain_text (- (3 # 10))) = Some (plain_value (- (3 # 10))) /\
  color_positive_negative read_decimal (format_rm (- (3 # 10)))
  = "color: black"%string.
Proof.
  split; [vm_compute; reflexivity|].
  apply (colour_of_formatted read_decimal (- (3 # 10))).
  vm_compute. reflexivity.
Defined.

Section Reading.

Lemma read_unsigned (u : Decimal.uint) :
  u <> Decimal.Nil ->
  read_decimal (NilZero.string_of_uint u)
  = Some (inject_Z (Z.of_N (N.of_uint u))).
Proof.
  intros Hu. pose proof (NilZero.usu u Hu) as E.
  destruct u; [contradiction| ..];
    cbn [NilZero.string_of_uint NilEmpty.string_of_uint] in *;
    unfold read_decimal; cbv iota beta; rewrite E; reflexivity.
Qed.

Lemma read_signed (u : Decimal.uint) :
  u <> Decimal.Nil ->
  read_decimal ("-" ++ NilZero.string_of_uint u)
  = Some (- inject_Z (Z.of_N (N.of_uint u))).
Proof.
  intros Hu. cbn [append]. unfold read_decimal. cbv iota beta.
  rewrite (NilZero.usu u Hu). reflexivity.
Qed.

Lemma to_uint_nonnil (n : N) : N.to_uint n <> Decimal.Nil.
Proof.
  destruct n; [discriminate|]. apply DecimalPos.Unsigned.to_uint_nonnil.
Qed.

Lemma round_half_even_nonneg (x : Q) : 0 <= x -> (0 <= round_half_even x)%Z.
Proof.
  intros H.
  pose proof (floor_ge x 0 ltac:(change (inject_Z 0) with 0; lra)) as H0.
  destruct (round_half_even_cases x) as [[Hc ->]|[[Hc [-> | ->]]|[Hc ->]]];
    lia.
Qed.

(** Reading a plain text gives the number it denotes. *)
Lemma read_plain (val : Q) :
  read_decimal (plain_text val) = Some (plain_value val).
Proof.
  unfold plain_text, plain_value, numeral.
  pose proof (round_half_even_nonneg _ (Qabs_nonneg val)) as Hz.
  set (z := round_half_even (Qabs val)) in *.
  pose proof (to_uint_nonnil (Z.to_N z)) as Hu.
  destruct (Qle_bool 0 val).
  - cbn [append]. rewrite (read_unsigned _ Hu).
    now rewrite DecimalN.Unsigned.of_to, Z2N.id.
  - rewrite (read_signed _ Hu).
    now rewrite DecimalN.Unsigned.of_to, Z2N.id.
Qed.

End Reading.

(** X20: the amount a formatted text shows is the nearest whole number:
    whatever [val] is, the text [format_rm val], cleaned as
    [color_positive_negative] cleans it and read as a decimal numeral, is a
    number at most one half away from [val]. *)
Theorem formatted_value_near (val : Q) :
  exists v,
    read_decimal
      (str_strip (str_replace "," "" (str_replace "RM" "" (format_rm val))))
    = Some v /\
    Qabs (v - val) <= 1 # 2.
Proof.
  exists (plain_value val). split.
  - rewrite clean_format. apply read_plain.
  - unfold plain_value.
    pose proof (round_half_even_near (Qabs val)) as H.
    apply Qabs_Qle_condition in H. apply Qabs_Qle_condition.
    destruct (Qle_bool 0 val) eqn:E.
    + apply Qle_bool_iff in E. pose proof (Qabs_pos val E). lra.
    + assert (val <= 0).
      { destruct (Qlt_le_dec 0 val) as [Hp|Hp]; [|exact Hp].
        apply Qlt_le_weak, Qle_bool_iff in Hp. congruence. }
      pose proof (Qabs_neg val ltac:(assumption)). lra.
Qed.
